(** * goinsane/accepter: the accept loop, the connection registry and the
    shutdown paths of [accepter.go], embedded as state-passing functions.

    The Go code runs several goroutines over one [Accepter]. Each function
    of the source is a function on a [World] here. Where the source blocks
    ([lis.Accept()], the [select] of [Shutdown]) the function consumes one
    round of a schedule: the atomic steps other goroutines take meanwhile,
    and the outcome the blocked call finally has. A schedule that runs out
    leaves the function [Pending]: still blocked. Sections guarded by
    [connDatasMu] are single atomic steps. *)

From stdpp Require Import base gmap sets list strings.
From Stdlib Require Import ZArith Lia.

Open Scope Z_scope.

(** ** Values of the Go standard library the source handles *)

(** A non-nil [error]. [err_net = Some t] when the dynamic type implements
    [net.Error] and its [Temporary()] answers [t]. A Go [error] that may be
    [nil] is an [option error]. *)
Record error := Error { err_msg : string; err_net : option bool }.

(** [ne, ok := err.(net.Error); ok && ne.Temporary()] *)
Definition is_temporary (e : error) : bool :=
  match err_net e with
  | Some t => t
  | None => false
  end.

(** [time.Duration] counts nanoseconds. *)
Definition Millisecond : Z := 1000000.

(** A [net.Conn] is known by its identity. *)
Abbreviation conn := positive.

(** Heap address of a [*tls.Config]. *)
Abbreviation loc := positive.

(** A [context.Context] as built by [context.WithCancel]: each derived
    context carries the identity its cancel function cancels. *)
Inductive Context :=
| Background
| WithCancelCtx (id : positive) (parent : Context).

(** [<-ctx.Done()] is ready once the context's own cancel function or the one
    of any ancestor has run. *)
Fixpoint ctx_done (cancelled : gset positive) (c : Context) : bool :=
  match c with
  | Background => false
  | WithCancelCtx id parent => bool_decide (id ∈ cancelled) || ctx_done cancelled parent
  end.

(** A [net.Listener]. A plain one has an identity, the result of its first
    [Close()] and the error its operations report once it is closed;
    [tls.NewListener] wraps an inner listener and delegates to it. *)
Inductive Listener :=
| NetListener (id : positive) (closeErr : option error) (errClosed : error)
| TLSListener (inner : Listener) (config : loc).

Fixpoint lis_id (l : Listener) : positive :=
  match l with
  | NetListener id _ _ => id
  | TLSListener inner _ => lis_id inner
  end.

Fixpoint lis_closeErr (l : Listener) : option error :=
  match l with
  | NetListener _ ce _ => ce
  | TLSListener inner _ => lis_closeErr inner
  end.

Fixpoint lis_errClosed (l : Listener) : error :=
  match l with
  | NetListener _ _ ec => ec
  | TLSListener inner _ => lis_errClosed inner
  end.

(** [tls.Certificate], known by the name of what was loaded; the zero value
    is the empty name. *)
Abbreviation Certificate := string.

(** The two fields of [tls.Config] that [ServeTLS] reads or writes.
    [GetCertificate] is [None] for a nil function value. *)
Record Config := mkConfig {
  Certificates : list Certificate;
  GetCertificate : option positive
}.

(** ** The data of [accepter.go] *)

Record connData := mkConnData {
  cd_ctx : Context;
  cd_conn : conn
}.

(** The [Accepter] struct. [Handler] is an opaque capability: its calls show
    up as events only. A nil [connDatas] reads like the empty map. The mutex
    is the atomicity of the steps below. *)
Record Accepter := mkAccepter {
  TLSConfig : option loc;
  lis : option Listener;
  ctx : option Context;
  ctxCancel : option positive;
  connDatas : gmap conn connData
}.

(** Where a goroutine running [serve(conn)] stands. *)
Inductive worker_pc :=
| WSpawned                      (* started by [go a.serve(conn)] *)
| WRegistered (id : positive)   (* entry written, handler not yet called *)
| WInHandler (id : positive)    (* inside [a.Handler.Serve(ctx, conn)] *)
| WHandlerDone (id : positive)  (* the handler has returned *)
| WConnClosed (id : positive)   (* [conn.Close()] done *)
| WExited.

(** What the goroutines do, in the order they do it. *)
Inductive event :=
| EvListen (network addr : string)
| EvLoadX509KeyPair (certFile keyFile : string)
| EvServe (l : Listener)
| EvAccept (l : Listener)
| EvGo (c : conn)
| EvSleep (d : Z)
| EvAfter (d : Z)
| EvCtxCancel (id : positive)
| EvLisClose (l : Listener)
| EvConnClose (c : conn)
| EvRegInsert (c : conn)
| EvRegDelete (c : conn)
| EvRegLen (n : nat)
| EvHandlerCall (c : conn)
| EvHandlerReturn (c : conn).

Record World := mkWorld {
  acc : Accepter;
  workers : gmap conn worker_pc;
  cancelled : gset positive;       (* contexts whose cancel function ran *)
  closed_lis : gset positive;      (* listeners that were closed *)
  closed_conns : gset conn;        (* connections that were closed *)
  configs : gmap loc Config;       (* the [tls.Config] objects *)
  next_id : positive;              (* next fresh identity *)
  log : list event
}.

(** Field updates. *)
Definition set_acc (f : Accepter → Accepter) (w : World) : World :=
  mkWorld (f (acc w)) (workers w) (cancelled w) (closed_lis w) (closed_conns w)
          (configs w) (next_id w) (log w).

Definition set_workers (f : gmap conn worker_pc → gmap conn worker_pc) (w : World) : World :=
  mkWorld (acc w) (f (workers w)) (cancelled w) (closed_lis w) (closed_conns w)
          (configs w) (next_id w) (log w).

Definition set_configs (f : gmap loc Config → gmap loc Config) (w : World) : World :=
  mkWorld (acc w) (workers w) (cancelled w) (closed_lis w) (closed_conns w)
          (f (configs w)) (next_id w) (log w).

Definition emit (e : event) (w : World) : World :=
  mkWorld (acc w) (workers w) (cancelled w) (closed_lis w) (closed_conns w)
          (configs w) (next_id w) (log w ++ [e]).

Definition set_lis (l : Listener) (a : Accepter) : Accepter :=
  mkAccepter (TLSConfig a) (Some l) (ctx a) (ctxCancel a) (connDatas a).

Definition set_ctx (c : Context) (id : positive) (a : Accepter) : Accepter :=
  mkAccepter (TLSConfig a) (lis a) (Some c) (Some id) (connDatas a).

Definition set_connDatas (f : gmap conn connData → gmap conn connData) (a : Accepter) : Accepter :=
  mkAccepter (TLSConfig a) (lis a) (ctx a) (ctxCancel a) (f (connDatas a)).

(** ** Primitives of [context], [net] and [time] *)

(** Running the cancel function of context [id]. *)
Definition cancel (id : positive) (w : World) : World :=
  emit (EvCtxCancel id)
    (mkWorld (acc w) (workers w) ({[id]} ∪ cancelled w) (closed_lis w) (closed_conns w)
             (configs w) (next_id w) (log w)).

(** [context.WithCancel(parent)]: a fresh derived context and the identity
    its cancel function cancels. *)
Definition WithCancel (parent : Context) (w : World) : Context * positive * World :=
  let id := next_id w in
  (WithCancelCtx id parent, id,
   mkWorld (acc w) (workers w) (cancelled w) (closed_lis w) (closed_conns w)
           (configs w) (Pos.succ id) (log w)).

(** [l.Close()]: the first call gives the listener's close result, a later
    one the error of a closed listener. *)
Definition lisClose (l : Listener) (w : World) : option error * World :=
  let r := if bool_decide (lis_id l ∈ closed_lis w) then Some (lis_errClosed l)
           else lis_closeErr l in
  (r, emit (EvLisClose l)
        (mkWorld (acc w) (workers w) (cancelled w) ({[lis_id l]} ∪ closed_lis w)
                 (closed_conns w) (configs w) (next_id w) (log w))).

(** [c.Close()]; the source drops its result everywhere. *)
Definition connClose (c : conn) (w : World) : World :=
  emit (EvConnClose c)
    (mkWorld (acc w) (workers w) (cancelled w) (closed_lis w) ({[c]} ∪ closed_conns w)
             (configs w) (next_id w) (log w)).

(** What a blocked [l.Accept()] finally yields. *)
Inductive accept_outcome :=
| Incoming (c : conn)
| Failure (e : error).

(** [l.Accept()]: a closed listener fails with its closed error, an open one
    yields what the network brings. *)
Definition lisAccept (l : Listener) (net : accept_outcome) (w : World) : accept_outcome * World :=
  (if bool_decide (lis_id l ∈ closed_lis w) then Failure (lis_errClosed l) else net,
   emit (EvAccept l) w).

Definition Sleep (d : Z) (w : World) : World := emit (EvSleep d) w.

(** ** The registry, under [connDatasMu] *)

Definition regInsert (c : conn) (cd : connData) (w : World) : World :=
  emit (EvRegInsert c) (set_acc (set_connDatas (λ m, <[c := cd]> m)) w).

Definition regDelete (c : conn) (w : World) : World :=
  emit (EvRegDelete c) (set_acc (set_connDatas (λ m, delete c m)) w).

Definition regLen (w : World) : nat * World :=
  let n := size (connDatas (acc w)) in (n, emit (EvRegLen n) w).

(** [for _, c := range a.connDatas { c.conn.Close() }] *)
Definition closeAll (w : World) : World :=
  foldl (λ w' cd, connClose (cd_conn cd) w') w (map_to_list (connDatas (acc w))).*2.

(** ** [serve]: the goroutine of one connection

    One step per atomic piece of the source, in source order:
    [WithCancel] and the locked insertion; the call of the handler; its
    return; [conn.Close()]; the locked deletion followed by the deferred
    [cancel()]. [None] is a run-time panic ([WithCancel] on a nil parent). *)
Definition serve_step (c : conn) (pc : worker_pc) (w : World) : option (worker_pc * World) :=
  match pc with
  | WSpawned =>
      match ctx (acc w) with
      | None => None
      | Some parent =>
          let '(cx, id, w1) := WithCancel parent w in
          Some (WRegistered id, regInsert c (mkConnData cx c) w1)
      end
  | WRegistered id => Some (WInHandler id, emit (EvHandlerCall c) w)
  | WInHandler id => Some (WHandlerDone id, emit (EvHandlerReturn c) w)
  | WHandlerDone id => Some (WConnClosed id, connClose c w)
  | WConnClosed id => Some (WExited, cancel id (regDelete c w))
  | WExited => Some (WExited, w)
  end.

(** [serve(conn)] run from its first statement to its return, with no other
    goroutine in between. *)
Definition serve (c : conn) (w : World) : option World :=
  '(pc1, w1) ← serve_step c WSpawned w;
  '(pc2, w2) ← serve_step c pc1 w1;
  '(pc3, w3) ← serve_step c pc2 w2;
  '(pc4, w4) ← serve_step c pc3 w3;
  '(_, w5) ← serve_step c pc4 w4;
  Some w5.

(** [go a.serve(conn)] *)
Definition go_serve (c : conn) (w : World) : World :=
  emit (EvGo c) (set_workers (λ m, <[c := WSpawned]> m) w).

(** ** What other goroutines do while one is blocked *)

Inductive env_step :=
| EnvWorker (c : conn)      (* the goroutine of [c] takes its next step *)
| EnvCtxCancel              (* [a.ctxCancel()], as Shutdown and Close do *)
| EnvLisClose               (* [a.lis.Close()] *)
| EnvConnClose (c : conn).  (* [c.Close()] *)

Definition env_do (s : env_step) (w : World) : option World :=
  match s with
  | EnvWorker c =>
      match workers w !! c with
      | None => Some w
      | Some pc =>
          '(pc', w') ← serve_step c pc w;
          Some (set_workers (λ m, <[c := pc']> m) w')
      end
  | EnvCtxCancel => id ← ctxCancel (acc w); Some (cancel id w)
  | EnvLisClose => l ← lis (acc w); Some (lisClose l w).2
  | EnvConnClose c => Some (connClose c w)
  end.

Fixpoint interfere (steps : list env_step) (w : World) : option World :=
  match steps with
  | [] => Some w
  | s :: steps' => w' ← env_do s w; interfere steps' w'
  end.

(** How a call of a blocking function stands when its schedule is used up. *)
Inductive result (A : Type) :=
| Ret (a : A) (w : World)      (* returned [a] *)
| Pending (w : World)          (* still blocked *)
| Panic.                       (* run-time panic: nil dereference *)
Arguments Ret {A} a w.
Arguments Pending {A} w.
Arguments Panic {A}.

(** ** [Shutdown] *)

(** Which case of the [select] fires. [DeadlineDone e]: [<-ctx.Done()], with
    [e] what [ctx.Err()] then answers. *)
Inductive select_case :=
| TimerFired
| DeadlineDone (e : error).

Record poll_round := mkPoll {
  waiting : list env_step;     (* steps of other goroutines during the wait *)
  fired : select_case
}.

Fixpoint Shutdown_loop (err : option error) (sched : list poll_round) (w : World)
  : result (option error) :=
  match sched with
  | [] => Pending w
  | rd :: sched' =>
      let w1 := emit (EvAfter (5 * Millisecond)) w in
      match interfere (waiting rd) w1 with
      | None => Panic
      | Some w2 =>
          match fired rd with
          | TimerFired =>
              let '(n, w3) := regLen w2 in
              if bool_decide (n = 0%nat) then Ret err w3
              else Shutdown_loop err sched' w3
          | DeadlineDone e => Ret (Some e) (closeAll w2)
          end
      end
  end.

Definition Shutdown (sched : list poll_round) (w : World) : result (option error) :=
  match ctxCancel (acc w) with
  | None => Panic
  | Some id =>
      let w1 := cancel id w in
      match lis (acc w1) with
      | None => Panic
      | Some l =>
          let '(err, w2) := lisClose l w1 in
          Shutdown_loop err sched w2
      end
  end.

(** ** [Close] *)

Definition Close (w : World) : result (option error) :=
  match ctxCancel (acc w) with
  | None => Panic
  | Some id =>
      let w1 := cancel id w in
      match lis (acc w1) with
      | None => Panic
      | Some l =>
          let '(err, w2) := lisClose l w1 in
          Ret err (closeAll w2)
      end
  end.

(** ** [Serve] *)

Record accept_round := mkAccept {
  interference : list env_step;  (* steps of other goroutines while Accept blocks *)
  arrival : accept_outcome       (* what the network brings to an open listener *)
}.

Fixpoint Serve_loop (l : Listener) (sched : list accept_round) (w : World)
  : result (option error) :=
  match sched with
  | [] => Pending w
  | rd :: sched' =>
      match interfere (interference rd) w with
      | None => Panic
      | Some w1 =>
          let '(out, w2) := lisAccept l (arrival rd) w1 in
          match out with
          | Failure e =>
              match ctx (acc w2) with
              | None => Panic
              | Some root =>
                  if ctx_done (cancelled w2) root then Ret None w2
                  else if is_temporary e
                       then Serve_loop l sched' (Sleep (5 * Millisecond) w2)
                       else Ret (Some e) w2
              end
          | Incoming c => Serve_loop l sched' (go_serve c w2)
          end
      end
  end.

(** The statements of [Serve] before its loop: [a.lis = lis], the new root
    scope from [context.WithCancel(context.Background())], and the new, empty
    registry. The identity returned is the one the deferred [a.ctxCancel()]
    cancels. *)
Definition Serve_init (l : Listener) (w : World) : positive * World :=
  let w1 := emit (EvServe l) (set_acc (set_lis l) w) in
  let '(root, id, w2) := WithCancel Background w1 in
  (id, set_acc (set_connDatas (λ _, ∅)) (set_acc (set_ctx root id) w2)).

(** On return the two deferred calls run last in, first out:
    [a.ctxCancel()], then [a.lis.Close()], both with the values they had at
    the [defer]. *)
Definition Serve (l : Listener) (sched : list accept_round) (w : World)
  : result (option error) :=
  let '(id, w1) := Serve_init l w in
  match Serve_loop l sched w1 with
  | Ret r w2 => Ret r (lisClose l (cancel id w2)).2
  | Pending w2 => Pending w2
  | Panic => Panic
  end.

(** ** The entry points that bind or wrap a listener *)

(** [&tls.Config{}] *)
Definition newConfig (w : World) : loc * World :=
  let p := next_id w in
  (p, mkWorld (acc w) (workers w) (cancelled w) (closed_lis w) (closed_conns w)
              (<[p := mkConfig [] None]> (configs w)) (Pos.succ p) (log w)).

(** [config.Certificates = v], through the pointer. *)
Definition storeCertificates (config : loc) (v : list Certificate) (w : World) : World :=
  set_configs (λ m, alter (λ cfg, mkConfig v (GetCertificate cfg)) config m) w.

(** [config.Certificates], through the pointer. *)
Definition loadCertificates (config : loc) (w : World) : list Certificate :=
  match configs w !! config with
  | Some cfg => Certificates cfg
  | None => []
  end.

Section EntryPoints.

(** [net.Listen] and [tls.LoadX509KeyPair] belong to the operating system
    and the file system: parameters here. The loader gives back both of its
    Go results. *)
Variable net_Listen : string → string → Listener + error.
Variable LoadX509KeyPair : string → string → Certificate * option error.

Definition ServeTLS (l : Listener) (certFile keyFile : string)
    (sched : list accept_round) (w : World) : result (option error) :=
  let '(config, w1) :=
    match TLSConfig (acc w) with
    | Some p => (p, w)
    | None => newConfig w
    end in
  match configs w1 !! config with
  | None => Panic
  | Some cfg =>
      let configHasCert :=
        bool_decide (0 < length (Certificates cfg))%nat
        || bool_decide (GetCertificate cfg ≠ None) in
      if negb configHasCert
         || bool_decide (certFile ≠ EmptyString)
         || bool_decide (keyFile ≠ EmptyString)
      then
        let w2 := storeCertificates config [EmptyString] w1 in
        let '(cert, err) := LoadX509KeyPair certFile keyFile in
        let w3 := emit (EvLoadX509KeyPair certFile keyFile) w2 in
        let w4 := storeCertificates config (<[0%nat := cert]> (loadCertificates config w3)) w3 in
        match err with
        | Some e => Ret (Some e) w4
        | None => Serve (TLSListener l config) sched w4
        end
      else Serve (TLSListener l config) sched w1
  end.

Definition TCPListenAndServe (addr : string) (sched : list accept_round) (w : World)
  : result (option error) :=
  let w1 := emit (EvListen "tcp" addr) w in
  match net_Listen "tcp" addr with
  | inr e => Ret (Some e) w1
  | inl l => Serve l sched w1
  end.

Definition TCPListenAndServeTLS (addr certFile keyFile : string)
    (sched : list accept_round) (w : World) : result (option error) :=
  let w1 := emit (EvListen "tcp" addr) w in
  match net_Listen "tcp" addr with
  | inr e => Ret (Some e) w1
  | inl l => ServeTLS l certFile keyFile sched w1
  end.

End EntryPoints.

(** ** Notions the properties are stated with *)

Ltac prim :=
  unfold regInsert, regDelete, regLen, connClose, cancel, lisClose, lisAccept,
    Sleep, go_serve, WithCancel, newConfig, storeCertificates, emit, set_acc,
    set_workers, set_configs, set_connDatas, set_ctx, set_lis in *;
  simpl in *.

(** The fields of the Accepter that only [Serve] writes. *)
Definition same_scope (w w' : World) : Prop :=
  lis (acc w') = lis (acc w) ∧ ctx (acc w') = ctx (acc w)
  ∧ ctxCancel (acc w') = ctxCancel (acc w) ∧ TLSConfig (acc w') = TLSConfig (acc w)
  ∧ configs w' = configs w.

(** The state in which [Serve] leaves the world when it returns from the
    state [w] of its last iteration: the two deferred calls have run. *)
Definition Serve_deferred (l : Listener) (id : positive) (w : World) : World :=
  (lisClose l (cancel id w)).2.




(** The worker of a connection has written its entry and not yet deleted it. *)
Definition holds_entry (pc : worker_pc) : bool :=
  match pc with
  | WRegistered _ | WInHandler _ | WHandlerDone _ | WConnClosed _ => true
  | WSpawned | WExited => false
  end.

(** The connection was accepted and its handler has not yet returned. *)
Definition handler_pending (pc : worker_pc) : bool :=
  match pc with
  | WSpawned | WRegistered _ | WInHandler _ => true
  | WHandlerDone _ | WConnClosed _ | WExited => false
  end.

(** The registry has an entry for exactly the connections whose worker is
    between its insertion and its deletion. *)
Definition reg_inv (w : World) : Prop :=
  ∀ c : conn, is_Some (connDatas (acc w) !! c)
              ↔ ∃ pc, workers w !! c = Some pc ∧ holds_entry pc = true.

(** The reading of the specification: an entry exactly while the connection
    is accepted and its handler has not returned. *)
Definition entry_iff_handler_pending (w : World) (c : conn) : Prop :=
  is_Some (connDatas (acc w) !! c)
  ↔ ∃ pc, workers w !! c = Some pc ∧ handler_pending pc = true.

(** The configuration carries certificate material:
    [len(config.Certificates) > 0 || config.GetCertificate != nil]. *)
Definition has_material (cfg : Config) : Prop :=
  (0 < length (Certificates cfg))%nat ∨ GetCertificate cfg ≠ None.

(** The world after the load branch of [ServeTLS]: the object at [p] holds
    the one certificate [cert], and the load has been logged. *)
Definition installed (p : loc) (cert : Certificate) (certFile keyFile : string)
    (cfg : Config) (w : World) : World :=
  emit (EvLoadX509KeyPair certFile keyFile)
    (set_configs (λ m, <[p := mkConfig [cert] (GetCertificate cfg)]> m) w).

(** ** Notions of the further properties *)

(** [Serve l] has initialised the Accepter: the root scope is the context
    [id], the stored cancel function cancels it, and the listener is [l]. *)
Definition serving_on (l : Listener) (id : positive) (w : World) : Prop :=
  ctx (acc w) = Some (WithCancelCtx id Background)
  ∧ ctxCancel (acc w) = Some id
  ∧ lis (acc w) = Some l.

(** The root scope is [root], and every entry of the registry is stored under
    its own connection with a context derived from [root]. *)
Definition entries_scoped (root : Context) (w : World) : Prop :=
  ctx (acc w) = Some root
  ∧ ∀ c cd, connDatas (acc w) !! c = Some cd →
            cd_conn cd = c ∧ ∃ k, cd_ctx cd = WithCancelCtx k root.




(** The connections the network brings in the rounds of a schedule. *)
Definition arrivals (sched : list accept_round) : list conn :=
  omap (λ rd, match arrival rd with
              | Incoming c => Some c
              | Failure _ => None
              end) sched.

(** A round in which no other goroutine closes the listener and the network
    brings a connection. *)
Definition brings_conn (rd : accept_round) : Prop :=
  Forall (λ s, s ≠ EnvLisClose) (interference rd) ∧ ∃ c, arrival rd = Incoming c.

(** ** The handler of the example program: echo

    The example [main] serves with a handler that, in a loop, reads into a
    fresh 32 KiB buffer and writes back what it has read; it leaves the loop
    when the read fails, when the write fails, or when the write is short. *)

(** [len(b)] for [var b [32 * 1024]byte]. *)
Definition bufSize : nat := 32 * 1024.

(** What one [conn.Read(b[:])] gives: the bytes received and the error. *)
Record read_result := mkRead {
  rd_data : list Byte.byte;
  rd_err : option error
}.

(** [b[:n]] after the read: a read fills no more than the buffer holds. *)
Definition read_bytes (r : read_result) : list Byte.byte := take bufSize (rd_data r).

(** What one [conn.Write(b[:n])] gives: how many bytes the connection takes
    and the error. *)
Record write_result := mkWrite {
  wr_n : nat;
  wr_err : option error
}.

(** One turn of the loop as the connection answers it. *)
Record io_round := mkIO {
  io_read : read_result;
  io_write : write_result
}.

Inductive handler_state :=
| HandlerBlocked      (* inside [conn.Read], the script being used up *)
| HandlerReturned.

(** The bytes the handler has written to the connection, and where it stands. *)
Fixpoint echo (script : list io_round) : list Byte.byte * handler_state :=
  match script with
  | [] => ([], HandlerBlocked)
  | rd :: script' =>
      let b := read_bytes (io_read rd) in
      let n := length b in
      match rd_err (io_read rd) with
      | Some _ => ([], HandlerReturned)
      | None =>
          let m := Nat.min (wr_n (io_write rd)) n in
          match wr_err (io_write rd) with
          | Some _ => (take m b, HandlerReturned)
          | None =>
              if (m <? n)%nat then (take m b, HandlerReturned)
              else let '(out, st) := echo script' in (take m b ++ out, st)
          end
      end
  end.

(** A turn in which the read succeeds and the write takes everything. *)
Definition clean_round (rd : io_round) : Prop :=
  rd_err (io_read rd) = None ∧ wr_err (io_write rd) = None
  ∧ (length (read_bytes (io_read rd)) ≤ wr_n (io_write rd))%nat.

(** ** Sample data *)

Module Sample.

(** The error of a closed network listener: a [net.Error], not temporary. *)
Definition errNetClosed : error := Error "use of closed network connection" (Some false).


Definition errPlain : error := Error "boom" None.

Definition errDeadline : error := Error "context deadline exceeded" None.

Definition errBind : error := Error "listen tcp: address already in use" None.

Definition errClose : error := Error "close: interrupted" None.

Definition errLoad : error := Error "open missing.pem: no such file or directory" None.

Definition l0 : Listener := NetListener 100 None errNetClosed.

(** A listener whose [Close()] reports an error. *)
Definition l1 : Listener := NetListener 101 (Some errClose) errNetClosed.

(** A fresh process: no field of the Accepter is set. *)
Definition fresh : World :=
  mkWorld (mkAccepter None None None None ∅) ∅ ∅ ∅ ∅ ∅ 1%positive [].

Definition outcome_world (r : result (option error)) : World :=
  match r with
  | Ret _ w | Pending w => w
  | Panic => fresh
  end.

Definition after (steps : list env_step) (w : World) : World :=
  default fresh (interfere steps w).

(** The world after [Serve l0] has started and accepted nothing yet. *)
Definition serving : World := (Serve_init l0 fresh).2.

(** Connection 7 has been accepted by [Serve l0]. *)
Definition accepted7 : World := go_serve 7 serving.

(** Its worker has run up to and including [conn.Close()]. *)
Definition conn_closed7 : World :=
  after [EnvWorker 7; EnvWorker 7; EnvWorker 7; EnvWorker 7] accepted7.


(** [Serve l1] is serving; connection 7 is inside its handler. *)
Definition busy : World :=
  after [EnvWorker 7; EnvWorker 7] (go_serve 7 (Serve_init l1 fresh).2).

Definition first_round : list accept_round := [mkAccept [] (Incoming 7)].

Definition stop_round : accept_round := mkAccept [EnvCtxCancel; EnvLisClose] (Incoming 8).

Definition broken_round : accept_round := mkAccept [] (Failure errPlain).


Definition accepted_one : World := outcome_world (Serve_loop l0 first_round serving).

Definition poll_wait : poll_round := mkPoll [] TimerFired.


Definition poll_deadline : poll_round := mkPoll [] (DeadlineDone errDeadline).

(** The world in which [Shutdown] stands after its first, unsuccessful poll. *)
Definition polled_once : World :=
  outcome_world (Shutdown_loop (lisClose l1 (cancel 1 busy)).1 [poll_wait]
                   (lisClose l1 (cancel 1 busy)).2).

Definition loader (certFile keyFile : string) : Certificate * option error :=
  if bool_decide (certFile = "cert.pem") then ("cert.pem", None)
  else (EmptyString, Some errLoad).

Definition refuse (network addr : string) : Listener + error := inr errBind.

(** The Accepter was given a configuration with one certificate. *)
Definition configured : World :=
  mkWorld (mkAccepter (Some 50%positive) None None None ∅) ∅ ∅ ∅ ∅
          {[ 50%positive := mkConfig ["old.pem"] None ]} 51%positive [].

(** Connection 7 is accepted; while [Accept] blocks again its worker gets as
    far as calling the handler, and connection 8 arrives. *)
Definition two_rounds : list accept_round :=
  [mkAccept [] (Incoming 7); mkAccept [EnvWorker 7; EnvWorker 7] (Incoming 8)].

Definition serving_two : World := outcome_world (Serve_loop l0 two_rounds serving).

(** As before, but instead of connection 8 a permanent failure arrives. *)
Definition crash_sched : list accept_round :=
  [mkAccept [] (Incoming 7); mkAccept [EnvWorker 7; EnvWorker 7] (Failure errPlain)].

Definition crashed : World := outcome_world (Serve l0 crash_sched fresh).

(** Connection 8 is accepted, its goroutine has not yet run. *)
Definition spawned8 : World := go_serve 8 serving.

Definition bind (network addr : string) : Listener + error := inl l0.

Definition errEOF : error := Error "EOF" None.

Definition hello : list Byte.byte := [Byte.x68; Byte.x65; Byte.x6c; Byte.x6c; Byte.x6f].

(** Five bytes arrive and are taken in full. *)
Definition echo_ok : io_round := mkIO (mkRead hello None) (mkWrite 5 None).

(** The peer has closed: the read reports end of file. *)
Definition echo_eof : io_round := mkIO (mkRead [] (Some errEOF)) (mkWrite 0 None).

(** Five bytes arrive, the connection takes two of them. *)
Definition echo_short : io_round := mkIO (mkRead hello None) (mkWrite 2 None).

End Sample.

(** * Properties *)

(** ** Frame facts shared by the proofs *)

Lemma same_scope_refl w : same_scope w w.
Proof. by repeat split. Qed.

Lemma same_scope_trans w1 w2 w3 : same_scope w1 w2 → same_scope w2 w3 → same_scope w1 w3.
Proof. unfold same_scope. intros (?&?&?&?&?) (?&?&?&?&?). repeat split; congruence. Qed.

Lemma serve_step_scope c pc w pc' w' :
  serve_step c pc w = Some (pc', w') → same_scope w w'.
Proof.
  destruct pc; simpl; intros H.
  - destruct (ctx (acc w)); [|done]. prim. simplify_eq. by repeat split.
  - simplify_eq. by repeat split.
  - simplify_eq. by repeat split.
  - simplify_eq. by repeat split.
  - simplify_eq. by repeat split.
  - simplify_eq. by repeat split.
Qed.

Lemma env_do_scope s w w' : env_do s w = Some w' → same_scope w w'.
Proof.
  destruct s as [c| | |c]; simpl; intros H.
  - destruct (workers w !! c) as [pc|]; [|simplify_eq; apply same_scope_refl].
    destruct (serve_step c pc w) as [[pc' w1]|] eqn:E; simpl in H; [|done].
    simplify_eq. apply serve_step_scope in E. destruct E as (?&?&?&?&?). by repeat split.
  - destruct (ctxCancel (acc w)); simpl in H; simplify_eq. by repeat split.
  - destruct (lis (acc w)); simpl in H; simplify_eq. by repeat split.
  - simplify_eq. by repeat split.
Qed.

Lemma interfere_scope steps : ∀ w w', interfere steps w = Some w' → same_scope w w'.
Proof.
  induction steps as [|s steps IH]; simpl; intros w w' H.
  - simplify_eq. apply same_scope_refl.
  - destruct (env_do s w) as [w1|] eqn:E; simpl in H; [|done].
    eapply same_scope_trans; [by eapply env_do_scope | by apply IH].
Qed.

Lemma Serve_loop_app l pre : ∀ w w1 rest,
  Serve_loop l pre w = Pending w1 →
  Serve_loop l (pre ++ rest) w = Serve_loop l rest w1.
Proof.
  induction pre as [|rd pre IH]; simpl; intros w w1 rest H.
  - by simplify_eq.
  - destruct (interfere (interference rd) w) as [w2|]; [|done].
    destruct (bool_decide (lis_id l ∈ closed_lis w2)); simpl in *.
    + destruct (ctx (acc w2)) as [root|]; [|done].
      destruct (ctx_done (cancelled w2) root); [done|].
      destruct (is_temporary (lis_errClosed l)); [|done]. by apply IH.
    + destruct (arrival rd) as [c|e]; [by apply IH|].
      destruct (ctx (acc w2)) as [root|]; [|done].
      destruct (ctx_done (cancelled w2) root); [done|].
      destruct (is_temporary e); [|done]. by apply IH.
Qed.

Lemma Serve_loop_scope l sched : ∀ w w',
  Serve_loop l sched w = Pending w' → same_scope w w'.
Proof.
  induction sched as [|rd sched IH]; simpl; intros w w' H.
  - simplify_eq. apply same_scope_refl.
  - destruct (interfere (interference rd) w) as [w2|] eqn:E; [|done].
    apply interfere_scope in E.
    eapply same_scope_trans; [exact E|].
    destruct (bool_decide (lis_id l ∈ closed_lis w2)); simpl in *.
    + destruct (ctx (acc w2)) as [root|]; [|done].
      destruct (ctx_done (cancelled w2) root); [done|].
      destruct (is_temporary (lis_errClosed l)); [|done].
      apply IH in H. destruct H as (?&?&?&?&?). by repeat split.
    + destruct (arrival rd) as [c|e].
      * apply IH in H. destruct H as (?&?&?&?&?). by repeat split.
      * destruct (ctx (acc w2)) as [root|]; [|done].
        destruct (ctx_done (cancelled w2) root); [done|].
        destruct (is_temporary e); [|done].
        apply IH in H. destruct H as (?&?&?&?&?). by repeat split.
Qed.

Lemma Serve_init_ctx l w id w0 :
  Serve_init l w = (id, w0) →
  ctx (acc w0) = Some (WithCancelCtx id Background) ∧ ctxCancel (acc w0) = Some id
  ∧ lis (acc w0) = Some l ∧ connDatas (acc w0) = ∅ ∧ id = next_id w
  ∧ cancelled w0 = cancelled w ∧ closed_lis w0 = closed_lis w
  ∧ workers w0 = workers w ∧ log w0 = log w ++ [EvServe l].
Proof. unfold Serve_init. prim. intros H. simplify_eq. by repeat split. Qed.

(** ** The accept loop *)


(** C1. [Serve] has passed through the rounds [pre] and is blocked in
    [Accept] again. If that call fails once the root scope (the context this
    [Serve] created) has been cancelled, [Serve] returns nil; if it fails
    while the root scope is live with an error that is not temporary,
    [Serve] returns that very error. Either way the deferred calls have run. *)
Theorem Serve_returns_on_accept_failure l pre rd rest w id w0 w1 w2 e :
  Serve_init l w = (id, w0) →
  Serve_loop l pre w0 = Pending w1 →
  interfere (interference rd) w1 = Some w2 →
  (lisAccept l (arrival rd) w2).1 = Failure e →
  let w3 := (lisAccept l (arrival rd) w2).2 in
  (id ∈ cancelled w3 →
     Serve l (pre ++ rd :: rest) w = Ret None (Serve_deferred l id w3))
  ∧ (id ∉ cancelled w3 → is_temporary e = false →
     Serve l (pre ++ rd :: rest) w = Ret (Some e) (Serve_deferred l id w3)).
Proof.
  intros Hinit Hpre Hint Hacc w3.
  assert (Hroot : ctx (acc w3) = Some (WithCancelCtx id Background)).
  { destruct (Serve_init_ctx _ _ _ _ Hinit) as (Hc&_).
    apply Serve_loop_scope in Hpre. destruct Hpre as (_&Hp&_).
    apply interfere_scope in Hint. destruct Hint as (_&Hi&_).
    subst w3. simpl. congruence. }
  assert (Hstep : Serve_loop l (pre ++ rd :: rest) w0 =
                  if ctx_done (cancelled w3) (WithCancelCtx id Background) then Ret None w3
                  else if is_temporary e
                       then Serve_loop l rest (Sleep (5 * Millisecond) w3)
                       else Ret (Some e) w3).
  { rewrite (Serve_loop_app _ _ _ _ _ Hpre). simpl. rewrite Hint.
    subst w3. unfold lisAccept in *. simpl in *. rewrite Hacc. by rewrite Hroot. }
  unfold Serve. rewrite Hinit, Hstep. simpl. split.
  - intros Hin. by rewrite bool_decide_eq_true_2.
  - intros Hnin Ht. rewrite bool_decide_eq_false_2 by done. simpl. by rewrite Ht.
Qed.


(** ** Closing every registered connection *)

Lemma closeList_spec (L : list connData) : ∀ w,
  let w' := foldl (λ w' cd, connClose (cd_conn cd) w') w L in
  acc w' = acc w ∧ workers w' = workers w ∧ cancelled w' = cancelled w
  ∧ closed_lis w' = closed_lis w
  ∧ log w' = log w ++ ((EvConnClose ∘ cd_conn) <$> L)
  ∧ (∀ c, c ∈ closed_conns w' ↔ c ∈ closed_conns w ∨ ∃ cd, cd ∈ L ∧ cd_conn cd = c).
Proof.
  induction L as [|cd L IH]; intros w; simpl.
  - rewrite app_nil_r. repeat split; try done; [by left|].
    intros [?|(cd&Hcd&_)]; [done|]. by apply elem_of_nil in Hcd.
  - destruct (IH (connClose (cd_conn cd) w)) as (Ha&Hw&Hc&Hl&Hlog&Hcl).
    simpl in *. repeat split; try done.
    + rewrite Hlog. prim. by rewrite <- app_assoc.
    + rewrite Hcl. prim. intros [Hin|(cd'&Hcd'&<-)].
      * apply elem_of_union in Hin as [Hin|Hin]; [|by left].
        apply elem_of_singleton in Hin. right. exists cd. split; [left|done].
      * right. exists cd'. split; [by right|done].
    + rewrite Hcl. prim. intros [Hin|(cd'&Hcd'&<-)].
      * left. apply elem_of_union. by right.
      * apply elem_of_cons in Hcd' as [->|Hcd'].
        -- left. apply elem_of_union. left. by apply elem_of_singleton.
        -- right. by exists cd'.
Qed.

Lemma closeAll_spec w :
  acc (closeAll w) = acc w ∧ workers (closeAll w) = workers w
  ∧ cancelled (closeAll w) = cancelled w ∧ closed_lis (closeAll w) = closed_lis w
  ∧ log (closeAll w) = log w ++ ((EvConnClose ∘ cd_conn) <$> (map_to_list (connDatas (acc w))).*2)
  ∧ (∀ c cd, connDatas (acc w) !! c = Some cd → cd_conn cd ∈ closed_conns (closeAll w)).
Proof.
  unfold closeAll.
  destruct (closeList_spec (map_to_list (connDatas (acc w))).*2 w) as (Ha&Hw&Hc&Hl&Hlog&Hcl).
  repeat split; try done.
  intros c cd Hcd. apply Hcl. right. exists cd. split; [|done].
  apply list_elem_of_fmap. exists (c, cd). split; [done|].
  by apply elem_of_map_to_list.
Qed.

(** ** Logs *)








(** ** [Shutdown] and [Close] *)

Lemma Shutdown_loop_app err pre : ∀ w w1 rest,
  Shutdown_loop err pre w = Pending w1 →
  Shutdown_loop err (pre ++ rest) w = Shutdown_loop err rest w1.
Proof.
  induction pre as [|rd pre IH]; simpl; intros w w1 rest H.
  - by simplify_eq.
  - destruct (interfere (waiting rd) _) as [w2|]; [|done].
    destruct (fired rd); [|done]. prim.
    destruct (bool_decide (size (connDatas (acc w2)) = 0%nat)); [done|]. by apply IH.
Qed.


Lemma Shutdown_unfold sched w id l :
  ctxCancel (acc w) = Some id →
  lis (acc w) = Some l →
  Shutdown sched w
  = Shutdown_loop (lisClose l (cancel id w)).1 sched (lisClose l (cancel id w)).2.
Proof. intros Hc Hl. unfold Shutdown. rewrite Hc. simpl. by rewrite Hl. Qed.


(** C3. The loop kept waiting through the rounds [pre]; then the deadline
    context is done, with error [e]. [Shutdown] closes the connection handle
    of every entry still in the registry, leaves the registry as it is, and
    returns [e], whatever closing the listener returned. *)
Theorem Shutdown_deadline_forces_close pre rd rest w id l e w2 w3 :
  ctxCancel (acc w) = Some id →
  lis (acc w) = Some l →
  Shutdown_loop (lisClose l (cancel id w)).1 pre (lisClose l (cancel id w)).2 = Pending w2 →
  interfere (waiting rd) (emit (EvAfter 5000000) w2) = Some w3 →
  fired rd = DeadlineDone e →
  ∃ w', Shutdown (pre ++ rd :: rest) w = Ret (Some e) w'
        ∧ connDatas (acc w') = connDatas (acc w3)
        ∧ workers w' = workers w3
        ∧ (∀ c cd, connDatas (acc w3) !! c = Some cd → cd_conn cd ∈ closed_conns w').
Proof.
  intros Hc Hl Hpre Hint Hf.
  exists (closeAll w3).
  destruct (closeAll_spec w3) as (Ha&Hw&_&_&_&Hcl).
  split; [|split; [by rewrite Ha|split; [done|exact Hcl]]].
  rewrite (Shutdown_unfold _ _ _ _ Hc Hl), (Shutdown_loop_app _ _ _ _ _ Hpre). simpl.
  change (5 * Millisecond) with 5000000. by rewrite Hint, Hf.
Qed.

(** C5. [Close] cancels the root scope, closes the listener, closes the
    connection handle of every entry of the registry and returns what
    closing the listener returned. It has no blocking point: it takes no
    schedule, arms no timer, and no worker has to move. *)
Theorem Close_cancels_and_closes_all w id l :
  ctxCancel (acc w) = Some id →
  lis (acc w) = Some l →
  ∃ w', Close w = Ret (lisClose l (cancel id w)).1 w'
        ∧ log w' = log w ++ [EvCtxCancel id; EvLisClose l]
                     ++ ((EvConnClose ∘ cd_conn) <$> (map_to_list (connDatas (acc w))).*2)
        ∧ id ∈ cancelled w' ∧ lis_id l ∈ closed_lis w'
        ∧ (∀ c cd, connDatas (acc w) !! c = Some cd → cd_conn cd ∈ closed_conns w')
        ∧ connDatas (acc w') = connDatas (acc w)
        ∧ workers w' = workers w.
Proof.
  intros Hc Hl.
  exists (closeAll (lisClose l (cancel id w)).2).
  destruct (closeAll_spec (lisClose l (cancel id w)).2) as (Ha&Hw&Hca&Hli&Hlog&Hcl).
  split; [|split; [|split; [|split; [|split; [|split]]]]].
  - unfold Close. rewrite Hc. simpl. by rewrite Hl.
  - rewrite Hlog. prim. by rewrite <- !app_assoc.
  - rewrite Hca. prim. apply elem_of_union. left. by apply elem_of_singleton.
  - rewrite Hli. prim. apply elem_of_union. left. by apply elem_of_singleton.
  - exact Hcl.
  - by rewrite Ha.
  - by rewrite Hw.
Qed.

(** ** The registry entry of a connection *)

Lemma serve_step_reg_inv c pc w pc' w' :
  workers w !! c = Some pc →
  serve_step c pc w = Some (pc', w') →
  reg_inv w →
  reg_inv (set_workers (λ m, <[c := pc']> m) w').
Proof.
  intros Hpc Hstep Hinv c'.
  assert (Hother : c' ≠ c →
    (is_Some (connDatas (acc w) !! c')
     ↔ ∃ pc0, <[c := pc']> (workers w) !! c' = Some pc0 ∧ holds_entry pc0 = true)).
  { intros Hne. rewrite lookup_insert_ne by done. apply Hinv. }
  assert (Hsame : holds_entry pc = holds_entry pc' →
    (is_Some (connDatas (acc w) !! c')
     ↔ ∃ pc0, <[c := pc']> (workers w) !! c' = Some pc0 ∧ holds_entry pc0 = true)).
  { intros Heq. destruct (decide (c' = c)) as [->|Hne]; [|by apply Hother].
    rewrite lookup_insert_eq, (Hinv c), Hpc.
    split; intros (pc0&?&?); simplify_eq; eexists; split; try done; congruence. }
  destruct pc; simpl in Hstep.
  - destruct (ctx (acc w)) as [parent|]; [|done]. prim. simplify_eq. simpl.
    destruct (decide (c' = c)) as [->|Hne].
    + rewrite !lookup_insert_eq. split; [|by eexists]. intros _. by eexists.
    + rewrite lookup_insert_ne by done. by apply Hother.
  - simplify_eq. prim. by apply Hsame.
  - simplify_eq. prim. by apply Hsame.
  - simplify_eq. prim. by apply Hsame.
  - simplify_eq. prim.
    destruct (decide (c' = c)) as [->|Hne].
    + rewrite lookup_delete_eq, lookup_insert_eq. split.
      * by intros [? ?].
      * intros (pc0&?&?). by simplify_eq.
    + rewrite lookup_delete_ne by done. by apply Hother.
  - simplify_eq. prim. by apply Hsame.
Qed.

Lemma env_do_reg_inv s w w' : env_do s w = Some w' → reg_inv w → reg_inv w'.
Proof.
  destruct s as [c| | |c]; simpl; intros H Hinv.
  - destruct (workers w !! c) as [pc|] eqn:Hpc; [|by simplify_eq].
    destruct (serve_step c pc w) as [[pc' w1]|] eqn:E; simpl in H; [|done].
    simplify_eq. by eapply serve_step_reg_inv.
  - destruct (ctxCancel (acc w)); simpl in H; by simplify_eq.
  - destruct (lis (acc w)); simpl in H; by simplify_eq.
  - by simplify_eq.
Qed.

Lemma interfere_reg_inv steps : ∀ w w',
  interfere steps w = Some w' → reg_inv w → reg_inv w'.
Proof.
  induction steps as [|s steps IH]; simpl; intros w w' H Hinv; [by simplify_eq|].
  destruct (env_do s w) as [w1|] eqn:E; simpl in H; [|done].
  eapply IH; [done|]. by eapply env_do_reg_inv.
Qed.

(** [go a.serve(conn)] keeps the invariant for a connection that has no entry. *)
Lemma go_serve_reg_inv c w :
  connDatas (acc w) !! c = None → reg_inv w → reg_inv (go_serve c w).
Proof.
  intros Hnone Hinv c'. prim.
  destruct (decide (c' = c)) as [->|Hne].
  - rewrite lookup_insert_eq, Hnone. split; [by intros [? ?]|].
    intros (pc0&?&?). by simplify_eq.
  - rewrite lookup_insert_ne by done. apply Hinv.
Qed.

(** C4, as the code has it. Run alone, [serve] writes the entry, calls the
    handler, sees it return, closes the connection and only then deletes the
    entry (and cancels its own scope). Under any interleaving of workers and
    of the cancel and close steps of other goroutines, the registry has an
    entry for a connection exactly from its worker's insertion until its
    deletion, that is until after the connection has been closed. *)
Theorem serve_entry_lasts_until_conn_closed c w parent steps w' :
  ctx (acc w) = Some parent →
  reg_inv w →
  interfere steps w = Some w' →
  (∃ w5, serve c w = Some w5
         ∧ log w5 = log w ++ [EvRegInsert c; EvHandlerCall c; EvHandlerReturn c;
                              EvConnClose c; EvRegDelete c; EvCtxCancel (next_id w)]
         ∧ connDatas (acc w5) = delete c (connDatas (acc w))
         ∧ c ∈ closed_conns w5)
  ∧ reg_inv w'.
Proof.
  intros Hctx Hinv Hint. split; [|by eapply interfere_reg_inv].
  unfold serve. simpl. rewrite Hctx. simpl. eexists. split; [done|].
  simpl. split; [by rewrite <- !app_assoc|]. split.
  - by rewrite delete_insert_eq.
  - apply elem_of_union. left. by apply elem_of_singleton.
Qed.

(** C4, as the specification words it, fails: once the handler of connection
    7 has returned and the connection has been closed, the entry is still in
    the registry. *)
Lemma serve_entry_after_handler_return_cex :
  interfere [EnvWorker 7; EnvWorker 7; EnvWorker 7; EnvWorker 7] Sample.accepted7
    = Some Sample.conn_closed7
  ∧ workers Sample.conn_closed7 !! 7%positive = Some (WConnClosed 2)
  ∧ 7%positive ∈ closed_conns Sample.conn_closed7
  ∧ is_Some (connDatas (acc Sample.conn_closed7) !! 7%positive)
  ∧ ¬ entry_iff_handler_pending Sample.conn_closed7 7.
Proof.
  assert (Hw : workers Sample.conn_closed7 !! 7%positive = Some (WConnClosed 2))
    by (vm_compute; reflexivity).
  assert (He : is_Some (connDatas (acc Sample.conn_closed7) !! 7%positive))
    by (eexists; vm_compute; reflexivity).
  split; [vm_compute; reflexivity|]. split; [exact Hw|].
  split; [apply (bool_decide_unpack _); vm_compute; exact I|]. split; [exact He|].
  intros [Hclaim _]. destruct (Hclaim He) as (pc&Hpc&Hpend).
  rewrite Hw in Hpc. by simplify_eq.
Qed.

(** ** A listener stays closed *)

Lemma serve_step_closed_lis c pc w pc' w' :
  serve_step c pc w = Some (pc', w') → closed_lis w' = closed_lis w.
Proof.
  destruct pc; simpl; intros H; try by simplify_eq.
  destruct (ctx (acc w)); [|done]. prim. by simplify_eq.
Qed.

Lemma env_do_closed_lis s w w' x :
  env_do s w = Some w' → x ∈ closed_lis w → x ∈ closed_lis w'.
Proof.
  destruct s as [c| | |c]; simpl; intros H Hx.
  - destruct (workers w !! c) as [pc|]; [|by simplify_eq].
    destruct (serve_step c pc w) as [[pc' w1]|] eqn:E; simpl in H; [|done].
    simplify_eq. simpl. by rewrite (serve_step_closed_lis _ _ _ _ _ E).
  - destruct (ctxCancel (acc w)); simpl in H; by simplify_eq.
  - destruct (lis (acc w)); simpl in H; simplify_eq. simpl.
    apply elem_of_union. by right.
  - by simplify_eq.
Qed.

Lemma interfere_closed_lis steps x : ∀ w w',
  interfere steps w = Some w' → x ∈ closed_lis w → x ∈ closed_lis w'.
Proof.
  induction steps as [|s steps IH]; simpl; intros w w' H Hx; [by simplify_eq|].
  destruct (env_do s w) as [w1|] eqn:E; simpl in H; [|done].
  eapply IH; [done|]. by eapply env_do_closed_lis.
Qed.

Lemma Shutdown_loop_closed_lis err sched x : ∀ w r w',
  Shutdown_loop err sched w = Ret r w' → x ∈ closed_lis w → x ∈ closed_lis w'.
Proof.
  induction sched as [|rd sched IH]; simpl; intros w r w' H Hx; [done|].
  destruct (interfere (waiting rd) _) as [w2|] eqn:E; [|done].
  apply (interfere_closed_lis _ x) in E; [|done].
  destruct (fired rd) as [|e].
  - prim. destruct (bool_decide (size (connDatas (acc w2)) = 0%nat)).
    + by simplify_eq.
    + by apply IH in H.
  - simplify_eq. destruct (closeAll_spec w2) as (_&_&_&Hl&_). by rewrite Hl.
Qed.

Lemma Close_closes_listener w l r w' :
  lis (acc w) = Some l → Close w = Ret r w' → lis_id l ∈ closed_lis w'.
Proof.
  unfold Close. intros Hl H.
  destruct (ctxCancel (acc w)) as [id|]; [|done]. simpl in H. rewrite Hl in H.
  simplify_eq. destruct (closeAll_spec (lisClose l (cancel id w)).2) as (_&_&_&Hc&_).
  unfold closeAll in Hc. simpl in Hc. unfold closeAll. simpl. rewrite Hc.
  apply elem_of_union. left. by apply elem_of_singleton.
Qed.

Lemma Shutdown_closes_listener sched w l r w' :
  lis (acc w) = Some l → Shutdown sched w = Ret r w' → lis_id l ∈ closed_lis w'.
Proof.
  intros Hl H.
  destruct (ctxCancel (acc w)) as [id|] eqn:Hc; [|by unfold Shutdown in H; rewrite Hc in H].
  rewrite (Shutdown_unfold _ _ _ _ Hc Hl) in H.
  eapply Shutdown_loop_closed_lis; [exact H|]. simpl.
  apply elem_of_union. left. by apply elem_of_singleton.
Qed.



(** ** The entry points *)

Lemma Serve_loop_outcome_scope l sched : ∀ w r w',
  Serve_loop l sched w = Ret r w' ∨ Serve_loop l sched w = Pending w' →
  same_scope w w'.
Proof.
  induction sched as [|rd sched IH]; simpl; intros w r w' H.
  - destruct H as [H|H]; [done|]. simplify_eq. apply same_scope_refl.
  - destruct (interfere (interference rd) w) as [w2|] eqn:E; [|by destruct H].
    apply interfere_scope in E.
    eapply same_scope_trans; [exact E|].
    assert (Hfail : ∀ e,
      match ctx (acc w2) with
      | Some root =>
          if ctx_done (cancelled w2) root then Ret None (emit (EvAccept l) w2)
          else if is_temporary e
               then Serve_loop l sched (Sleep (5 * Millisecond) (emit (EvAccept l) w2))
               else Ret (Some e) (emit (EvAccept l) w2)
      | None => Panic
      end = Ret r w' ∨
      match ctx (acc w2) with
      | Some root =>
          if ctx_done (cancelled w2) root then Ret None (emit (EvAccept l) w2)
          else if is_temporary e
               then Serve_loop l sched (Sleep (5 * Millisecond) (emit (EvAccept l) w2))
               else Ret (Some e) (emit (EvAccept l) w2)
      | None => Panic
      end = Pending w' → same_scope w2 w').
    { intros e He. destruct (ctx (acc w2)) as [root|]; [|by destruct He].
      destruct (ctx_done (cancelled w2) root).
      { destruct He as [He|He]; [|done]. simplify_eq. by repeat split. }
      destruct (is_temporary e).
      - apply IH in He. destruct He as (?&?&?&?&?). by repeat split.
      - destruct He as [He|He]; [|done]. simplify_eq. by repeat split. }
    unfold lisAccept in H. simpl in H.
    destruct (bool_decide (lis_id l ∈ closed_lis w2)); [by eapply Hfail|].
    destruct (arrival rd) as [c|e]; [|by eapply Hfail].
    apply IH in H. destruct H as (?&?&?&?&?). by repeat split.
Qed.

Lemma Serve_outcome_configs l sched w r w' :
  Serve l sched w = Ret r w' ∨ Serve l sched w = Pending w' →
  configs w' = configs w ∧ TLSConfig (acc w') = TLSConfig (acc w).
Proof.
  unfold Serve. destruct (Serve_init l w) as [id w0] eqn:Hinit.
  assert (H0 : configs w0 = configs w ∧ TLSConfig (acc w0) = TLSConfig (acc w)).
  { unfold Serve_init in Hinit. prim. by simplify_eq. }
  destruct (Serve_loop l sched w0) as [r0 w2|w2|] eqn:E; intros [H|H]; simplify_eq.
  - assert (S : same_scope w0 w2)
      by exact (Serve_loop_outcome_scope l sched w0 r w2 (or_introl E)).
    destruct S as (_&_&_&?&?). destruct H0. simpl. split; congruence.
  - assert (S : same_scope w0 w')
      by exact (Serve_loop_outcome_scope l sched w0 None w' (or_intror E)).
    destruct S as (_&_&_&?&?). destruct H0. split; congruence.
Qed.

Lemma ServeTLS_branch cfg certFile keyFile :
  negb (bool_decide (0 < length (Certificates cfg))%nat
        || bool_decide (GetCertificate cfg ≠ None))
  || bool_decide (certFile ≠ EmptyString) || bool_decide (keyFile ≠ EmptyString) = false
  ↔ has_material cfg ∧ certFile = EmptyString ∧ keyFile = EmptyString.
Proof.
  unfold has_material.
  rewrite !orb_false_iff, negb_false_iff, orb_true_iff,
    !bool_decide_eq_false, !bool_decide_eq_true.
  split.
  - intros [[Hm Hc] Hk]. split; [done|]. split.
    + by destruct (decide (certFile = EmptyString)).
    + by destruct (decide (keyFile = EmptyString)).
  - intros (Hm&->&->). split; [split; [done|]|]; by intros ?.
Qed.

Lemma ServeTLS_store p cfg cert certFile keyFile w :
  configs w !! p = Some cfg →
  let w3 := emit (EvLoadX509KeyPair certFile keyFile)
              (storeCertificates p [EmptyString] w) in
  storeCertificates p (<[0%nat := cert]> (loadCertificates p w3)) w3
  = installed p cert certFile keyFile cfg w.
Proof.
  intros Hcfg. unfold installed, loadCertificates. prim.
  rewrite lookup_alter_eq, Hcfg. simpl. f_equal.
  apply map_eq. intros i. destruct (decide (i = p)) as [->|Hne].
  - by rewrite lookup_alter_eq, lookup_alter_eq, lookup_insert_eq, Hcfg.
  - by rewrite !lookup_alter_ne, lookup_insert_ne.
Qed.

Lemma ServeTLS_unfold LoadX509KeyPair l certFile keyFile sched w p w1 cfg :
  match TLSConfig (acc w) with Some q => (q, w) | None => newConfig w end = (p, w1) →
  configs w1 !! p = Some cfg →
  ServeTLS LoadX509KeyPair l certFile keyFile sched w
  = if negb (bool_decide (0 < length (Certificates cfg))%nat
             || bool_decide (GetCertificate cfg ≠ None))
       || bool_decide (certFile ≠ EmptyString) || bool_decide (keyFile ≠ EmptyString)
    then match (LoadX509KeyPair certFile keyFile).2 with
         | Some e => Ret (Some e)
                       (installed p (LoadX509KeyPair certFile keyFile).1 certFile keyFile cfg w1)
         | None => Serve (TLSListener l p) sched
                       (installed p (LoadX509KeyPair certFile keyFile).1 certFile keyFile cfg w1)
         end
    else Serve (TLSListener l p) sched w1.
Proof.
  intros Hp Hcfg. unfold ServeTLS. rewrite Hp, Hcfg.
  destruct (_ || _ || _); [|done].
  destruct (LoadX509KeyPair certFile keyFile) as [cert err]. simpl.
  by rewrite (ServeTLS_store _ _ _ _ _ _ Hcfg).
Qed.

(** C7. [ServeTLS] hands the configuration to [Serve] as it is exactly when
    it carries certificate material and both file names are empty. In every
    other case the pair is loaded from the two paths and becomes the only
    static certificate of the configuration; if the load fails its error is
    returned from a world in which [Serve] was never entered: nothing but the
    load is logged. *)
Theorem ServeTLS_certificate_material LoadX509KeyPair l certFile keyFile sched w p w1 cfg :
  match TLSConfig (acc w) with Some q => (q, w) | None => newConfig w end = (p, w1) →
  configs w1 !! p = Some cfg →
  let cert := (LoadX509KeyPair certFile keyFile).1 in
  let w4 := installed p cert certFile keyFile cfg w1 in
  (has_material cfg ∧ certFile = EmptyString ∧ keyFile = EmptyString →
     ServeTLS LoadX509KeyPair l certFile keyFile sched w = Serve (TLSListener l p) sched w1)
  ∧ (¬ (has_material cfg ∧ certFile = EmptyString ∧ keyFile = EmptyString) →
     configs w4 !! p = Some (mkConfig [cert] (GetCertificate cfg))
     ∧ log w4 = log w ++ [EvLoadX509KeyPair certFile keyFile]
     ∧ lis (acc w4) = lis (acc w) ∧ workers w4 = workers w
     ∧ match (LoadX509KeyPair certFile keyFile).2 with
       | Some e => ServeTLS LoadX509KeyPair l certFile keyFile sched w = Ret (Some e) w4
       | None => ServeTLS LoadX509KeyPair l certFile keyFile sched w
                 = Serve (TLSListener l p) sched w4
       end).
Proof.
  intros Hp Hcfg cert w4.
  rewrite (ServeTLS_unfold _ _ _ _ _ _ _ _ _ Hp Hcfg).
  destruct (_ || _ || _) eqn:Hb.
  - split.
    + intros Hm. apply ServeTLS_branch in Hm. congruence.
    + intros _. subst w4. unfold installed. prim.
      split; [by rewrite lookup_insert_eq|].
      assert (Hw : log w1 = log w ∧ lis (acc w1) = lis (acc w) ∧ workers w1 = workers w).
      { destruct (TLSConfig (acc w)); prim; by simplify_eq. }
      destruct Hw as (->&->&->). repeat split; try done.
      by destruct (LoadX509KeyPair certFile keyFile).2.
  - split; [done|]. intros Hn. apply ServeTLS_branch in Hb. done.
Qed.

(** C9. When [net.Listen] fails, both listen-and-serve entry points return
    its error at once: the world only gains the listen event, so [Serve] was
    not entered, no listener was set and no worker started. *)
Theorem ListenAndServe_bind_failure net_Listen LoadX509KeyPair addr certFile keyFile
    sched w e :
  net_Listen "tcp" addr = inr e →
  TCPListenAndServe net_Listen addr sched w = Ret (Some e) (emit (EvListen "tcp" addr) w)
  ∧ TCPListenAndServeTLS net_Listen LoadX509KeyPair addr certFile keyFile sched w
    = Ret (Some e) (emit (EvListen "tcp" addr) w)
  ∧ log (emit (EvListen "tcp" addr) w) = log w ++ [EvListen "tcp" addr]
  ∧ acc (emit (EvListen "tcp" addr) w) = acc w
  ∧ workers (emit (EvListen "tcp" addr) w) = workers w.
Proof.
  intros H. unfold TCPListenAndServe, TCPListenAndServeTLS. by rewrite H.
Qed.

(** C10. With a non-nil [TLSConfig] and the load branch taken, [ServeTLS]
    writes through the caller's pointer: the object at that address now holds
    the one loaded certificate, no other configuration object exists than
    before, and this is the state in which [ServeTLS] returns the load error
    or enters [Serve], and in which any outcome of [ServeTLS] leaves it. *)
Theorem ServeTLS_mutates_caller_config LoadX509KeyPair l certFile keyFile sched w p cfg :
  TLSConfig (acc w) = Some p →
  configs w !! p = Some cfg →
  ¬ has_material cfg ∨ certFile ≠ EmptyString ∨ keyFile ≠ EmptyString →
  let cert := (LoadX509KeyPair certFile keyFile).1 in
  let w4 := installed p cert certFile keyFile cfg w in
  configs w4 = <[p := mkConfig [cert] (GetCertificate cfg)]> (configs w)
  ∧ TLSConfig (acc w4) = Some p
  ∧ next_id w4 = next_id w
  ∧ match (LoadX509KeyPair certFile keyFile).2 with
    | Some e => ServeTLS LoadX509KeyPair l certFile keyFile sched w = Ret (Some e) w4
    | None => ServeTLS LoadX509KeyPair l certFile keyFile sched w
              = Serve (TLSListener l p) sched w4
    end
  ∧ (∀ r w', ServeTLS LoadX509KeyPair l certFile keyFile sched w = Ret r w'
             ∨ ServeTLS LoadX509KeyPair l certFile keyFile sched w = Pending w' →
       TLSConfig (acc w') = Some p
       ∧ configs w' = <[p := mkConfig [cert] (GetCertificate cfg)]> (configs w)).
Proof.
  intros Hp Hcfg Hbranch cert w4.
  assert (Hu := ServeTLS_unfold LoadX509KeyPair l certFile keyFile sched w p w cfg).
  rewrite Hp in Hu. specialize (Hu eq_refl Hcfg).
  destruct (_ || _ || _) eqn:Hb in Hu.
  2:{ apply ServeTLS_branch in Hb. destruct Hb as (?&?&?).
      destruct Hbranch as [?|[?|?]]; done. }
  fold cert in Hu. fold w4 in Hu.
  split; [done|]. split; [done|]. split; [done|]. split.
  - by destruct (LoadX509KeyPair certFile keyFile).2.
  - intros r w' H. rewrite Hu in H.
    destruct (LoadX509KeyPair certFile keyFile).2 as [e|].
    + destruct H as [H|H]; [|done]. by simplify_eq.
    + apply Serve_outcome_configs in H as [-> ->]. done.
Qed.

(** ** The theorems at sample inputs *)

Lemma reg_inv_empty w : connDatas (acc w) = ∅ → workers w = ∅ → reg_inv w.
Proof.
  intros Hc Hw c. rewrite Hc, Hw, !lookup_empty. split; [by intros [? ?]|].
  by intros (?&?&?).
Qed.

Lemma Serve_returns_on_accept_failure_witness :
  Serve Sample.l0 (Sample.first_round ++ Sample.stop_round :: []) Sample.fresh
  = Ret None
      (Serve_deferred Sample.l0 1
         (lisAccept Sample.l0 (arrival Sample.stop_round)
            (Sample.after (interference Sample.stop_round) Sample.accepted_one)).2)
  ∧ Serve Sample.l0 (Sample.first_round ++ Sample.broken_round :: []) Sample.fresh
    = Ret (Some Sample.errPlain)
        (Serve_deferred Sample.l0 1
           (lisAccept Sample.l0 (arrival Sample.broken_round) Sample.accepted_one).2).
Proof.
  split.
  - refine (proj1 (Serve_returns_on_accept_failure Sample.l0 Sample.first_round
                     Sample.stop_round [] Sample.fresh 1 Sample.serving
                     Sample.accepted_one
                     (Sample.after (interference Sample.stop_round) Sample.accepted_one)
                     Sample.errNetClosed _ _ _ _) _).
    + vm_compute; reflexivity.
    + vm_compute; reflexivity.
    + vm_compute; reflexivity.
    + vm_compute; reflexivity.
    + apply (bool_decide_unpack _); vm_compute; exact I.
  - refine (proj2 (Serve_returns_on_accept_failure Sample.l0 Sample.first_round
                     Sample.broken_round [] Sample.fresh 1 Sample.serving
                     Sample.accepted_one Sample.accepted_one
                     Sample.errPlain _ _ _ _) _ _).
    + vm_compute; reflexivity.
    + vm_compute; reflexivity.
    + vm_compute; reflexivity.
    + vm_compute; reflexivity.
    + apply (bool_decide_unpack _); vm_compute; exact I.
    + reflexivity.
Defined.



Lemma Shutdown_deadline_forces_close_witness :
  ∃ w', Shutdown ([Sample.poll_wait] ++ Sample.poll_deadline :: []) Sample.busy
        = Ret (Some Sample.errDeadline) w'
        ∧ connDatas (acc w') = connDatas (acc (emit (EvAfter 5000000) Sample.polled_once))
        ∧ workers w' = workers (emit (EvAfter 5000000) Sample.polled_once)
        ∧ (∀ c cd, connDatas (acc (emit (EvAfter 5000000) Sample.polled_once)) !! c = Some cd →
                   cd_conn cd ∈ closed_conns w').
Proof.
  apply (Shutdown_deadline_forces_close [Sample.poll_wait] Sample.poll_deadline []
           Sample.busy 1 Sample.l1 Sample.errDeadline Sample.polled_once
           (emit (EvAfter 5000000) Sample.polled_once)).
  - vm_compute; reflexivity.
  - vm_compute; reflexivity.
  - vm_compute; reflexivity.
  - vm_compute; reflexivity.
  - reflexivity.
Defined.

Lemma serve_entry_lasts_until_conn_closed_witness :
  (∃ w5, serve 7 Sample.accepted7 = Some w5
         ∧ log w5 = log Sample.accepted7
                    ++ [EvRegInsert 7; EvHandlerCall 7; EvHandlerReturn 7;
                        EvConnClose 7; EvRegDelete 7; EvCtxCancel (next_id Sample.accepted7)]
         ∧ connDatas (acc w5) = delete 7%positive (connDatas (acc Sample.accepted7))
         ∧ 7%positive ∈ closed_conns w5)
  ∧ reg_inv Sample.conn_closed7.
Proof.
  apply (serve_entry_lasts_until_conn_closed 7 Sample.accepted7
           (WithCancelCtx 1 Background)
           [EnvWorker 7; EnvWorker 7; EnvWorker 7; EnvWorker 7] Sample.conn_closed7).
  - vm_compute; reflexivity.
  - apply go_serve_reg_inv; [vm_compute; reflexivity|].
    apply reg_inv_empty; vm_compute; reflexivity.
  - vm_compute; reflexivity.
Defined.

Lemma Close_cancels_and_closes_all_witness :
  ∃ w', Close Sample.busy = Ret (lisClose Sample.l1 (cancel 1 Sample.busy)).1 w'
        ∧ log w' = log Sample.busy ++ [EvCtxCancel 1; EvLisClose Sample.l1]
                     ++ ((EvConnClose ∘ cd_conn)
                           <$> (map_to_list (connDatas (acc Sample.busy))).*2)
        ∧ 1%positive ∈ cancelled w' ∧ lis_id Sample.l1 ∈ closed_lis w'
        ∧ (∀ c cd, connDatas (acc Sample.busy) !! c = Some cd → cd_conn cd ∈ closed_conns w')
        ∧ connDatas (acc w') = connDatas (acc Sample.busy)
        ∧ workers w' = workers Sample.busy.
Proof.
  apply (Close_cancels_and_closes_all Sample.busy 1 Sample.l1).
  - vm_compute; reflexivity.
  - vm_compute; reflexivity.
Defined.

Lemma ServeTLS_certificate_material_witness :
  ServeTLS Sample.loader Sample.l0 "missing.pem" "key.pem" [] Sample.fresh
  = Ret (Some Sample.errLoad)
      (installed 1 EmptyString "missing.pem" "key.pem" (mkConfig [] None)
         (newConfig Sample.fresh).2).
Proof.
  destruct (ServeTLS_certificate_material Sample.loader Sample.l0 "missing.pem" "key.pem"
              [] Sample.fresh 1 (newConfig Sample.fresh).2 (mkConfig [] None))
    as (_&Hload).
  - reflexivity.
  - vm_compute; reflexivity.
  - destruct Hload as (_&_&_&_&H); [|exact H].
    intros (_&Hfile&_). discriminate Hfile.
Defined.


Lemma ListenAndServe_bind_failure_witness :
  TCPListenAndServe Sample.refuse ":1234" [] Sample.fresh
  = Ret (Some Sample.errBind) (emit (EvListen "tcp" ":1234") Sample.fresh)
  ∧ TCPListenAndServeTLS Sample.refuse Sample.loader ":1234" "cert.pem" "key.pem" []
      Sample.fresh
    = Ret (Some Sample.errBind) (emit (EvListen "tcp" ":1234") Sample.fresh).
Proof.
  destruct (ListenAndServe_bind_failure Sample.refuse Sample.loader ":1234"
              "cert.pem" "key.pem" [] Sample.fresh Sample.errBind)
    as (H1&H2&_).
  - reflexivity.
  - split; [exact H1|exact H2].
Defined.

Lemma ServeTLS_mutates_caller_config_witness :
  configs (installed 50 "cert.pem" "cert.pem" "key.pem" (mkConfig ["old.pem"] None)
             Sample.configured)
  = <[50%positive := mkConfig ["cert.pem"] None]> (configs Sample.configured)
  ∧ ServeTLS Sample.loader Sample.l0 "cert.pem" "key.pem" [] Sample.configured
    = Serve (TLSListener Sample.l0 50) []
        (installed 50 "cert.pem" "cert.pem" "key.pem" (mkConfig ["old.pem"] None)
           Sample.configured).
Proof.
  destruct (ServeTLS_mutates_caller_config Sample.loader Sample.l0 "cert.pem" "key.pem"
              [] Sample.configured 50 (mkConfig ["old.pem"] None))
    as (H1&_&_&H2&_).
  - reflexivity.
  - vm_compute; reflexivity.
  - right. left. discriminate.
  - split; [exact H1|exact H2].
Defined.

(** * Further properties *)

(** ** Predicates that every step of every goroutine keeps *)

Lemma serve_step_cases c pc w pc' w' :
  serve_step c pc w = Some (pc', w') →
  (∃ parent, pc = WSpawned ∧ ctx (acc w) = Some parent
             ∧ pc' = WRegistered (next_id w)
             ∧ w' = regInsert c (mkConnData (WithCancelCtx (next_id w) parent) c)
                      (WithCancel parent w).2)
  ∨ (∃ id, pc = WRegistered id ∧ pc' = WInHandler id ∧ w' = emit (EvHandlerCall c) w)
  ∨ (∃ id, pc = WInHandler id ∧ pc' = WHandlerDone id ∧ w' = emit (EvHandlerReturn c) w)
  ∨ (∃ id, pc = WHandlerDone id ∧ pc' = WConnClosed id ∧ w' = connClose c w)
  ∨ (∃ id, pc = WConnClosed id ∧ pc' = WExited ∧ w' = cancel id (regDelete c w))
  ∨ (pc = WExited ∧ pc' = WExited ∧ w' = w).
Proof.
  destruct pc; simpl; intros H.
  - destruct (ctx (acc w)) as [parent|]; [|done]. unfold WithCancel in *. simpl in *.
    simplify_eq. left. by eexists.
  - simplify_eq. right. left. by eexists.
  - simplify_eq. do 2 right. left. by eexists.
  - simplify_eq. do 3 right. left. by eexists.
  - simplify_eq. do 4 right. left. by eexists.
  - simplify_eq. by do 5 right.
Qed.

Section Stable.

Variable P : World → Prop.
Hypothesis P_emit : ∀ e w, P w → P (emit e w).
Hypothesis P_cancel : ∀ id w, P w → P (cancel id w).
Hypothesis P_lisClose : ∀ l w, P w → P (lisClose l w).2.
Hypothesis P_connClose : ∀ c w, P w → P (connClose c w).
Hypothesis P_worker : ∀ c pc w pc' w1,
  workers w !! c = Some pc → serve_step c pc w = Some (pc', w1) → P w →
  P (set_workers (λ m, <[c := pc']> m) w1).
Hypothesis P_go : ∀ c w, P w → P (go_serve c w).

Lemma env_do_stable s w w' : env_do s w = Some w' → P w → P w'.
Proof.
  destruct s as [c| | |c]; simpl; intros H HP.
  - destruct (workers w !! c) as [pc|] eqn:Hpc; [|by simplify_eq].
    destruct (serve_step c pc w) as [[pc' w1]|] eqn:E; simpl in H; [|done].
    simplify_eq. by eapply P_worker.
  - destruct (ctxCancel (acc w)); simpl in H; simplify_eq. by apply P_cancel.
  - destruct (lis (acc w)); simpl in H; simplify_eq. by apply P_lisClose.
  - simplify_eq. by apply P_connClose.
Qed.

Lemma interfere_stable steps : ∀ w w', interfere steps w = Some w' → P w → P w'.
Proof.
  induction steps as [|s steps IH]; simpl; intros w w' H HP; [by simplify_eq|].
  destruct (env_do s w) as [w1|] eqn:E; simpl in H; [|done].
  eapply IH; [done|]. by eapply env_do_stable.
Qed.

Lemma closeList_stable (L : list connData) : ∀ w,
  P w → P (foldl (λ w' cd, connClose (cd_conn cd) w') w L).
Proof. induction L as [|cd L IH]; simpl; intros w HP; [done|]. by apply IH, P_connClose. Qed.

Lemma closeAll_stable w : P w → P (closeAll w).
Proof. apply closeList_stable. Qed.

Lemma Shutdown_loop_stable err sched : ∀ w r w',
  Shutdown_loop err sched w = Ret r w' ∨ Shutdown_loop err sched w = Pending w' →
  P w → P w'.
Proof.
  induction sched as [|rd sched IH]; simpl; intros w r w' H HP.
  - destruct H as [H|H]; [done|]. by simplify_eq.
  - destruct (interfere (waiting rd) _) as [w2|] eqn:E; [|by destruct H].
    apply interfere_stable in E; [|by apply P_emit].
    destruct (fired rd) as [|e].
    + unfold regLen in H. simpl in H.
      destruct (bool_decide (size (connDatas (acc w2)) = 0%nat)).
      * destruct H as [H|H]; [|done]. simplify_eq. by apply P_emit.
      * eapply IH; [exact H|]. by apply P_emit.
    + destruct H as [H|H]; [|done]. simplify_eq. by apply closeAll_stable.
Qed.

Lemma Shutdown_stable sched w r w' :
  Shutdown sched w = Ret r w' ∨ Shutdown sched w = Pending w' → P w → P w'.
Proof.
  intros H HP.
  destruct (ctxCancel (acc w)) as [id|] eqn:Hc;
    [|unfold Shutdown in H; rewrite Hc in H; by destruct H].
  destruct (lis (acc w)) as [l|] eqn:Hl;
    [|unfold Shutdown in H; rewrite Hc in H; simpl in H; rewrite Hl in H; by destruct H].
  rewrite (Shutdown_unfold _ _ _ _ Hc Hl) in H.
  eapply Shutdown_loop_stable; [exact H|]. by apply P_lisClose, P_cancel.
Qed.

Lemma Close_stable w r w' : Close w = Ret r w' → P w → P w'.
Proof.
  unfold Close. intros H HP.
  destruct (ctxCancel (acc w)) as [id|]; [|done]. simpl in H.
  destruct (lis (acc w)) as [l|]; [|done]. simplify_eq.
  apply closeAll_stable. apply (P_lisClose l (cancel id w)). by apply P_cancel.
Qed.

Lemma Serve_loop_stable l sched : ∀ w r w',
  Serve_loop l sched w = Ret r w' ∨ Serve_loop l sched w = Pending w' →
  P w → P w'.
Proof.
  induction sched as [|rd sched IH]; simpl; intros w r w' H HP.
  - destruct H as [H|H]; [done|]. by simplify_eq.
  - destruct (interfere (interference rd) w) as [w2|] eqn:E; [|by destruct H].
    apply interfere_stable in E; [|done].
    assert (HP2 : P (emit (EvAccept l) w2)) by by apply P_emit.
    unfold lisAccept in H. simpl in H.
    assert (Hfail : ∀ e,
      match ctx (acc w2) with
      | Some root =>
          if ctx_done (cancelled w2) root then Ret None (emit (EvAccept l) w2)
          else if is_temporary e
               then Serve_loop l sched (Sleep (5 * Millisecond) (emit (EvAccept l) w2))
               else Ret (Some e) (emit (EvAccept l) w2)
      | None => Panic
      end = Ret r w' ∨
      match ctx (acc w2) with
      | Some root =>
          if ctx_done (cancelled w2) root then Ret None (emit (EvAccept l) w2)
          else if is_temporary e
               then Serve_loop l sched (Sleep (5 * Millisecond) (emit (EvAccept l) w2))
               else Ret (Some e) (emit (EvAccept l) w2)
      | None => Panic
      end = Pending w' → P w').
    { intros e He. destruct (ctx (acc w2)) as [root|]; [|by destruct He].
      destruct (ctx_done (cancelled w2) root).
      { destruct He as [He|He]; [|done]. by simplify_eq. }
      destruct (is_temporary e).
      - eapply IH; [exact He|]. by apply P_emit.
      - destruct He as [He|He]; [|done]. by simplify_eq. }
    destruct (bool_decide (lis_id l ∈ closed_lis w2)); [by eapply Hfail|].
    destruct (arrival rd) as [c|e]; [|by eapply Hfail].
    eapply IH; [exact H|]. by apply P_go.
Qed.

End Stable.

Ltac step_inv H :=
  apply serve_step_cases in H
    as [(?parent&->&?Hctx&->&->)
       |[(?id&->&->&->)|[(?id&->&->&->)|[(?id&->&->&->)|[(?id&->&->&->)|(->&->&->)]]]]].

Ltac grows := intros; simpl; try done; try (apply elem_of_union; by right).

(** A cancelled context stays cancelled. *)
Lemma interfere_cancelled x steps w w' :
  interfere steps w = Some w' → x ∈ cancelled w → x ∈ cancelled w'.
Proof.
  apply (interfere_stable (λ w, x ∈ cancelled w)); try by grows.
  intros c pc w0 pc' w1 _ H Hx. step_inv H; grows.
Qed.

Lemma Shutdown_cancelled x sched w r w' :
  Shutdown sched w = Ret r w' ∨ Shutdown sched w = Pending w' →
  x ∈ cancelled w → x ∈ cancelled w'.
Proof.
  apply (Shutdown_stable (λ w, x ∈ cancelled w)); try by grows.
  intros c pc w0 pc' w1 _ H Hx. step_inv H; grows.
Qed.

Lemma Serve_loop_cancelled x l sched w r w' :
  Serve_loop l sched w = Ret r w' ∨ Serve_loop l sched w = Pending w' →
  x ∈ cancelled w → x ∈ cancelled w'.
Proof.
  apply (Serve_loop_stable (λ w, x ∈ cancelled w)); try by grows.
  intros c pc w0 pc' w1 _ H Hx. step_inv H; grows.
Qed.

(** A closed connection stays closed. *)
Lemma interfere_closed_conns x steps w w' :
  interfere steps w = Some w' → x ∈ closed_conns w → x ∈ closed_conns w'.
Proof.
  apply (interfere_stable (λ w, x ∈ closed_conns w)); try by grows.
  intros c pc w0 pc' w1 _ H Hx. step_inv H; grows.
Qed.

Lemma Shutdown_closed_conns x sched w r w' :
  Shutdown sched w = Ret r w' ∨ Shutdown sched w = Pending w' →
  x ∈ closed_conns w → x ∈ closed_conns w'.
Proof.
  apply (Shutdown_stable (λ w, x ∈ closed_conns w)); try by grows.
  intros c pc w0 pc' w1 _ H Hx. step_inv H; grows.
Qed.

(** The fields [Serve] has set stay as they are. *)
Lemma same_scope_serving_on l id w w' : same_scope w w' → serving_on l id w → serving_on l id w'.
Proof. intros (?&?&?&_) (?&?&?). repeat split; congruence. Qed.

Lemma Serve_init_serving_on l w id w0 : Serve_init l w = (id, w0) → serving_on l id w0.
Proof. intros H. destruct (Serve_init_ctx _ _ _ _ H) as (?&?&?&_). by repeat split. Qed.

Lemma interfere_serving_on l id steps w w' :
  interfere steps w = Some w' → serving_on l id w → serving_on l id w'.
Proof. intros H. apply same_scope_serving_on. by eapply interfere_scope. Qed.

Lemma Serve_loop_serving_on l0 id l sched w r w' :
  Serve_loop l sched w = Ret r w' ∨ Serve_loop l sched w = Pending w' →
  serving_on l0 id w → serving_on l0 id w'.
Proof. intros H. apply same_scope_serving_on. by eapply Serve_loop_outcome_scope. Qed.

Lemma stop_serving_on l id sched w r w' :
  Close w = Ret r w' ∨ Shutdown sched w = Ret r w' ∨ Shutdown sched w = Pending w' →
  serving_on l id w → serving_on l id w'.
Proof.
  intros H.
  assert (St : ∀ c pc w0 pc' w1, workers w0 !! c = Some pc →
                 serve_step c pc w0 = Some (pc', w1) → serving_on l id w0 →
                 serving_on l id (set_workers (λ m, <[c := pc']> m) w1)).
  { intros c pc w0 pc' w1 _ E. apply serve_step_scope in E. intros HS.
    destruct (same_scope_serving_on l id _ _ E HS) as (?&?&?). by repeat split. }
  assert (Fr : ∀ w0 w1, acc w1 = acc w0 → serving_on l id w0 → serving_on l id w1).
  { intros w0 w1 E. unfold serving_on. by rewrite E. }
  intros HS. destruct H as [H|H].
  - eapply (Close_stable (serving_on l id)); [..|exact H|exact HS];
      intros; (eapply Fr; [|eassumption]); reflexivity.
  - eapply (Shutdown_stable (serving_on l id)); [..|exact H|exact HS]; try exact St;
      intros; (eapply Fr; [|eassumption]); reflexivity.
Qed.

(** Once [Serve] has set its fields no step of another goroutine panics. *)
Lemma env_do_total l id s w : serving_on l id w → is_Some (env_do s w).
Proof.
  intros (Hc&Hk&Hl). destruct s as [c| | |c]; simpl.
  - destruct (workers w !! c) as [pc|]; [|by eexists].
    destruct pc; simpl; try rewrite Hc; by eexists.
  - rewrite Hk. by eexists.
  - rewrite Hl. by eexists.
  - by eexists.
Qed.

Lemma interfere_total l id steps : ∀ w, serving_on l id w → is_Some (interfere steps w).
Proof.
  induction steps as [|s steps IH]; simpl; intros w HS; [by eexists|].
  destruct (env_do_total l id s w HS) as [w1 E]. rewrite E. simpl.
  apply IH. eapply (interfere_serving_on l id [s]); [|done]. simpl. by rewrite E.
Qed.

Lemma Close_cancels_root w id r w' :
  ctxCancel (acc w) = Some id → Close w = Ret r w' → id ∈ cancelled w'.
Proof.
  unfold Close. intros Hc H. rewrite Hc in H. simpl in H.
  destruct (lis (acc w)) as [l|]; [|done]. simplify_eq.
  destruct (closeAll_spec (lisClose l (cancel id w)).2) as (_&_&Hca&_).
  unfold closeAll in Hca. simpl in Hca. unfold closeAll. simpl. rewrite Hca.
  apply elem_of_union. left. by apply elem_of_singleton.
Qed.

Lemma Shutdown_cancels_root sched w id r w' :
  ctxCancel (acc w) = Some id →
  Shutdown sched w = Ret r w' ∨ Shutdown sched w = Pending w' →
  id ∈ cancelled w'.
Proof.
  intros Hc H.
  destruct (lis (acc w)) as [l|] eqn:Hl;
    [|unfold Shutdown in H; rewrite Hc in H; simpl in H; rewrite Hl in H; by destruct H].
  rewrite (Shutdown_unfold _ _ _ _ Hc Hl) in H.
  eapply (Shutdown_loop_stable (λ w, id ∈ cancelled w)); [..|exact H|]; try by grows.
  - intros c pc w0 pc' w1 _ E Hx. step_inv E; grows.
  - simpl. apply elem_of_union. left. by apply elem_of_singleton.
Qed.

Lemma Serve_loop_no_panic l0 id l sched : ∀ w,
  serving_on l0 id w → Serve_loop l sched w ≠ Panic.
Proof.
  induction sched as [|rd sched IH]; simpl; intros w HS; [done|].
  destruct (interfere_total l0 id (interference rd) w HS) as [w2 E]. rewrite E.
  apply (interfere_serving_on l0 id) in E; [|done].
  assert (HS2 : ∀ e, serving_on l0 id (emit e w2)) by (intros e; exact E).
  unfold lisAccept. simpl.
  assert (Hfail : ∀ e,
    match ctx (acc w2) with
    | Some root =>
        if ctx_done (cancelled w2) root then Ret None (emit (EvAccept l) w2)
        else if is_temporary e
             then Serve_loop l sched (Sleep (5 * Millisecond) (emit (EvAccept l) w2))
             else Ret (Some e) (emit (EvAccept l) w2)
    | None => Panic
    end ≠ Panic).
  { intros e. destruct E as (->&_&_). simpl.
    destruct (bool_decide (id ∈ cancelled w2)); simpl; [done|].
    destruct (is_temporary e); [|done]. apply IH. exact (HS2 (EvAccept l)). }
  destruct (bool_decide (lis_id l ∈ closed_lis w2)); [by apply Hfail|].
  destruct (arrival rd) as [c|e]; [|by apply Hfail].
  apply IH. exact (HS2 (EvAccept l)).
Qed.

Lemma Shutdown_loop_no_panic l id err sched : ∀ w,
  serving_on l id w → Shutdown_loop err sched w ≠ Panic.
Proof.
  induction sched as [|rd sched IH]; simpl; intros w HS; [done|].
  destruct (interfere_total l id (waiting rd) (emit (EvAfter (5 * Millisecond)) w))
    as [w2 E]; [exact HS|]. rewrite E.
  apply (interfere_serving_on l id) in E; [|exact HS].
  destruct (fired rd) as [|e]; [|done].
  unfold regLen. simpl.
  destruct (bool_decide (size (connDatas (acc w2)) = 0%nat)); [done|].
  apply IH. exact E.
Qed.

Lemma serving_after_rounds l pre w id w0 w1 :
  Serve_init l w = (id, w0) → Serve_loop l pre w0 = Pending w1 → serving_on l id w1.
Proof.
  intros Hinit Hpre.
  apply (Serve_loop_serving_on l id l pre w0 None w1 (or_intror Hpre)).
  by eapply Serve_init_serving_on.
Qed.

(** X1. [Serve] never finds [a.ctx], [a.ctxCancel] or [a.lis] nil: it sets
    all three before its loop, and no step of the loop, of a worker or of
    another goroutine unsets them. Whatever the schedule, [Serve] returns or
    is still blocked in [Accept]. *)
Theorem Serve_never_panics l sched w : Serve l sched w ≠ Panic.
Proof.
  unfold Serve. destruct (Serve_init l w) as [id w0] eqn:Hinit.
  apply Serve_init_serving_on in Hinit.
  pose proof (Serve_loop_no_panic l id l sched w0 Hinit) as H.
  by destruct (Serve_loop l sched w0).
Qed.

(** X2. While [Serve] is serving, [Close] and [Shutdown] find the cancel
    function and the listener set, whatever the other goroutines do
    meanwhile: neither panics. On an Accepter whose [ctxCancel] is nil, as
    before the first [Serve], both panic on their first statement. *)
Theorem stop_safe_once_serving l pre w id w0 w1 sched :
  Serve_init l w = (id, w0) →
  Serve_loop l pre w0 = Pending w1 →
  Close w1 ≠ Panic ∧ Shutdown sched w1 ≠ Panic
  ∧ (∀ w2 sched2, ctxCancel (acc w2) = None →
       Close w2 = Panic ∧ Shutdown sched2 w2 = Panic).
Proof.
  intros Hinit Hpre.
  assert (HS : serving_on l id w1) by by eapply serving_after_rounds.
  split; [|split].
  - destruct HS as (_&Hc&Hl). unfold Close. rewrite Hc. simpl. by rewrite Hl.
  - destruct HS as (Hx&Hc&Hl).
    rewrite (Shutdown_unfold _ _ _ _ Hc Hl).
    apply (Shutdown_loop_no_panic l id). by repeat split.
  - intros w2 sched2 Hn. unfold Close, Shutdown. by rewrite Hn.
Qed.

(** X3. [Serve] is blocked in [Accept] when [Close] or [Shutdown] runs and
    returns. Whatever the network then brings and whatever the other
    goroutines do, that [Accept] fails and the accept loop returns nil: no
    worker is started for a connection arriving after the stop. *)
Theorem Serve_returns_nil_once_stopped l pre w id w0 w1 sched0 r wc rd rest :
  Serve_init l w = (id, w0) →
  Serve_loop l pre w0 = Pending w1 →
  Close w1 = Ret r wc ∨ Shutdown sched0 w1 = Ret r wc →
  ∃ w2, interfere (interference rd) wc = Some w2
        ∧ Serve_loop l (rd :: rest) wc = Ret None (emit (EvAccept l) w2).
Proof.
  intros Hinit Hpre Hstop.
  assert (HS : serving_on l id w1) by by eapply serving_after_rounds.
  assert (HSc : serving_on l id wc).
  { apply (stop_serving_on l id sched0 w1 r wc); [|exact HS].
    destruct Hstop as [H|H]; [by left|right; by left]. }
  assert (Hcan : id ∈ cancelled wc).
  { destruct HS as (_&Hc&_). destruct Hstop as [H|H].
    - by eapply Close_cancels_root.
    - apply (Shutdown_cancels_root sched0 w1 id r wc Hc). by left. }
  assert (Hcl : lis_id l ∈ closed_lis wc).
  { destruct HS as (_&_&Hl). destruct Hstop as [H|H].
    - by eapply Close_closes_listener.
    - by eapply Shutdown_closes_listener. }
  destruct (interfere_total l id (interference rd) wc HSc) as [w2 E].
  exists w2. split; [done|]. simpl. rewrite E.
  pose proof (interfere_cancelled id _ _ _ E Hcan) as Hcan2.
  pose proof (interfere_closed_lis _ (lis_id l) _ _ E Hcl) as Hcl2.
  apply (interfere_serving_on l id) in E; [|done]. destruct E as (Hx&_&_).
  unfold lisAccept. simpl.
  rewrite (bool_decide_eq_true_2 _ Hcl2), Hx. simpl.
  by rewrite (bool_decide_eq_true_2 _ Hcan2).
Qed.

(** ** Every registered context hangs under the root scope *)

Lemma entries_frame root w w' :
  acc w' = acc w → entries_scoped root w → entries_scoped root w'.
Proof. intros E. unfold entries_scoped. by rewrite E. Qed.

Lemma entries_worker root c pc w pc' w1 :
  workers w !! c = Some pc → serve_step c pc w = Some (pc', w1) →
  entries_scoped root w →
  entries_scoped root (set_workers (λ m, <[c := pc']> m) w1).
Proof.
  intros _ H [Hroot Hent]. step_inv H; try (by split).
  - split; [done|]. simpl. intros c' cd Hcd.
    destruct (decide (c' = c)) as [->|Hne].
    + rewrite lookup_insert_eq in Hcd. simplify_eq. simpl. split; [done|].
      by eexists.
    + rewrite lookup_insert_ne in Hcd by done. by apply Hent.
  - split; [done|]. simpl. intros c' cd Hcd.
    apply lookup_delete_Some in Hcd as [_ Hcd]. by apply Hent.
Qed.

Ltac by_frame lem := intros; (eapply lem; [|eassumption]); reflexivity.

Lemma Serve_loop_entries root l sched w r w' :
  Serve_loop l sched w = Ret r w' ∨ Serve_loop l sched w = Pending w' →
  entries_scoped root w → entries_scoped root w'.
Proof.
  apply (Serve_loop_stable (entries_scoped root));
    try exact (entries_worker root); by_frame entries_frame.
Qed.

Lemma stop_entries root sched w r w' :
  Close w = Ret r w' ∨ Shutdown sched w = Ret r w' ∨ Shutdown sched w = Pending w' →
  entries_scoped root w → entries_scoped root w'.
Proof.
  intros [H|H] HE.
  - eapply (Close_stable (entries_scoped root)); [..|exact H|exact HE];
      by_frame entries_frame.
  - eapply (Shutdown_stable (entries_scoped root)); [..|exact H|exact HE];
      try exact (entries_worker root); by_frame entries_frame.
Qed.

Lemma Serve_init_entries l w id w0 :
  Serve_init l w = (id, w0) → entries_scoped (WithCancelCtx id Background) w0.
Proof.
  intros H. destruct (Serve_init_ctx _ _ _ _ H) as (Hc&_&_&He&_).
  split; [done|]. intros c cd Hcd. rewrite He, lookup_empty in Hcd. done.
Qed.

Lemma entries_done id w :
  entries_scoped (WithCancelCtx id Background) w → id ∈ cancelled w →
  ∀ c cd, connDatas (acc w) !! c = Some cd →
          cd_conn cd = c ∧ ctx_done (cancelled w) (cd_ctx cd) = true.
Proof.
  intros [_ Hent] Hid c cd Hcd. destruct (Hent c cd Hcd) as (Hk&k&Hx).
  split; [done|]. rewrite Hx. simpl.
  rewrite (bool_decide_eq_true_2 (id ∈ cancelled w) Hid). by rewrite orb_true_r.
Qed.

(** X4. When [Serve] returns, for whatever reason, the listener it was given
    is closed, and every connection still in the registry is stored under
    its own identity with a context that is done: the handlers still running
    have all been signalled. *)
Theorem Serve_return_cancels_every_entry l sched w r w' :
  Serve l sched w = Ret r w' →
  lis_id l ∈ closed_lis w'
  ∧ ∀ c cd, connDatas (acc w') !! c = Some cd →
            cd_conn cd = c ∧ ctx_done (cancelled w') (cd_ctx cd) = true.
Proof.
  unfold Serve. destruct (Serve_init l w) as [id w0] eqn:Hinit.
  destruct (Serve_loop l sched w0) as [r0 w2| |] eqn:E; [|done..].
  intros H. simplify_eq. split.
  - simpl. apply elem_of_union. left. by apply elem_of_singleton.
  - apply (entries_done id).
    + apply (entries_frame _ w2); [done|].
      apply (Serve_loop_entries _ l sched w0 r w2 (or_introl E)).
      by eapply Serve_init_entries.
    + simpl. apply elem_of_union. left. by apply elem_of_singleton.
Qed.

(** X5. [Serve] is serving when [Close] or [Shutdown] is called. From the
    moment the call has made its first two steps, so while [Shutdown] polls
    as well as when either has returned, the context of every connection in
    the registry is done. *)
Theorem stop_cancels_every_entry l pre w id w0 w1 sched r w' :
  Serve_init l w = (id, w0) →
  Serve_loop l pre w0 = Pending w1 →
  Close w1 = Ret r w' ∨ Shutdown sched w1 = Ret r w' ∨ Shutdown sched w1 = Pending w' →
  ∀ c cd, connDatas (acc w') !! c = Some cd →
          cd_conn cd = c ∧ ctx_done (cancelled w') (cd_ctx cd) = true.
Proof.
  intros Hinit Hpre Hstop.
  assert (HS : serving_on l id w1) by by eapply serving_after_rounds.
  apply (entries_done id).
  - apply (stop_entries _ sched w1 r w' Hstop).
    apply (Serve_loop_entries _ l pre w0 None w1 (or_intror Hpre)).
    by eapply Serve_init_entries.
  - destruct HS as (_&Hc&_). destruct Hstop as [H|H].
    + by eapply Close_cancels_root.
    + by apply (Shutdown_cancels_root sched w1 id r w' Hc).
Qed.

(** ** What a drained registry means *)

Lemma reg_inv_frame w w' :
  acc w' = acc w → workers w' = workers w → reg_inv w → reg_inv w'.
Proof. intros Ea Ew. unfold reg_inv. by rewrite Ea, Ew. Qed.











(** X7. What the drain does not cover. A connection has been accepted and
    its goroutine started, but it has not yet written its registry entry,
    and the registry is empty. [Shutdown] then returns at its first poll,
    with the listener's close result; the worker is still at its first
    statement, and when it runs on it registers the connection and calls the
    handler, after [Shutdown] has returned. *)
Theorem Shutdown_overlooks_unregistered_worker l id w c rest :
  serving_on l id w →
  connDatas (acc w) = ∅ →
  workers w !! c = Some WSpawned →
  ∃ w' w'',
    Shutdown (mkPoll [] TimerFired :: rest) w = Ret (lisClose l (cancel id w)).1 w'
    ∧ workers w' !! c = Some WSpawned
    ∧ interfere [EnvWorker c; EnvWorker c] w' = Some w''
    ∧ is_Some (connDatas (acc w'') !! c)
    ∧ workers w'' !! c = Some (WInHandler (next_id w))
    ∧ log w'' = log w' ++ [EvRegInsert c; EvHandlerCall c].
Proof.
  intros (Hx&Hc&Hl) Hempty Hsp.
  eexists. eexists. split; [|split; [|split; [|split; [|split]]]].
  - rewrite (Shutdown_unfold _ _ _ _ Hc Hl). simpl. unfold regLen. simpl.
    rewrite Hempty, map_size_empty. simpl. reflexivity.
  - exact Hsp.
  - simpl. rewrite Hsp. simpl. rewrite Hx. simpl.
    rewrite lookup_insert_eq. simpl. reflexivity.
  - simpl. rewrite lookup_insert_eq. by eexists.
  - simpl. by rewrite insert_insert_eq, lookup_insert_eq.
  - simpl. by rewrite <- !app_assoc.
Qed.

(** ** The registry in every state [Serve] reaches *)

Lemma interfere_workers_None c steps w w' :
  interfere steps w = Some w' → workers w !! c = None → workers w' !! c = None.
Proof.
  apply (interfere_stable (λ w, workers w !! c = None)); try done.
  intros c0 pc w0 pc' w1 Hpc H HP.
  assert (c0 ≠ c) by (intros ->; congruence).
  step_inv H; simpl; by rewrite lookup_insert_ne.
Qed.

Lemma arrivals_cons rd sched :
  arrivals (rd :: sched)
  = match arrival rd with
    | Incoming c => c :: arrivals sched
    | Failure _ => arrivals sched
    end.
Proof. unfold arrivals. simpl. by destruct (arrival rd). Qed.

Lemma Serve_loop_reg_inv l sched : ∀ w r w',
  reg_inv w →
  NoDup (arrivals sched) →
  (∀ c, c ∈ arrivals sched → workers w !! c = None) →
  Serve_loop l sched w = Ret r w' ∨ Serve_loop l sched w = Pending w' →
  reg_inv w'.
Proof.
  induction sched as [|rd sched IH]; intros w r w' Hreg Hnd Hfresh H; simpl in H.
  - destruct H as [H|H]; [done|]. by simplify_eq.
  - destruct (interfere (interference rd) w) as [w2|] eqn:E; [|by destruct H].
    pose proof (interfere_reg_inv _ _ _ E Hreg) as Hreg2.
    assert (Hfresh2 : ∀ c, c ∈ arrivals (rd :: sched) → workers w2 !! c = None).
    { intros c Hc. eapply interfere_workers_None; [exact E|]. by apply Hfresh. }
    assert (Hsub : ∀ c, c ∈ arrivals sched → c ∈ arrivals (rd :: sched)).
    { intros c Hc. rewrite arrivals_cons. destruct (arrival rd); [by right|done]. }
    assert (Hnd' : NoDup (arrivals sched)).
    { rewrite arrivals_cons in Hnd.
      destruct (arrival rd); [by apply NoDup_cons in Hnd as [_ ?]|done]. }
    unfold lisAccept in H. simpl in H.
    assert (Hfail : ∀ e,
      match ctx (acc w2) with
      | Some root =>
          if ctx_done (cancelled w2) root then Ret None (emit (EvAccept l) w2)
          else if is_temporary e
               then Serve_loop l sched (Sleep (5 * Millisecond) (emit (EvAccept l) w2))
               else Ret (Some e) (emit (EvAccept l) w2)
      | None => Panic
      end = Ret r w' ∨
      match ctx (acc w2) with
      | Some root =>
          if ctx_done (cancelled w2) root then Ret None (emit (EvAccept l) w2)
          else if is_temporary e
               then Serve_loop l sched (Sleep (5 * Millisecond) (emit (EvAccept l) w2))
               else Ret (Some e) (emit (EvAccept l) w2)
      | None => Panic
      end = Pending w' → reg_inv w').
    { intros e He. destruct (ctx (acc w2)) as [root|]; [|by destruct He].
      destruct (ctx_done (cancelled w2) root).
      { destruct He as [He|He]; [|done]. by simplify_eq. }
      destruct (is_temporary e).
      - eapply (IH _ r w'); [| | |exact He]; [exact Hreg2|done|].
        intros c Hc. by apply Hfresh2, Hsub.
      - destruct He as [He|He]; [|done]. by simplify_eq. }
    destruct (bool_decide (lis_id l ∈ closed_lis w2)); [by eapply Hfail|].
    destruct (arrival rd) as [c|e] eqn:Ha; [|by eapply Hfail].
    assert (Hc : workers w2 !! c = None).
    { apply Hfresh2. rewrite arrivals_cons, Ha. by left. }
    eapply (IH _ r w'); [| | |exact H]; [|done|].
    + apply (go_serve_reg_inv c (emit (EvAccept l) w2)); [|exact Hreg2].
      destruct (connDatas (acc w2) !! c) as [cd|] eqn:Hcd; [|done].
      assert (Hs : is_Some (connDatas (acc w2) !! c)) by by eexists.
      apply Hreg2 in Hs as (pc&Hpc&_). congruence.
    + intros c' Hc'. simpl. rewrite lookup_insert_ne.
      * by apply Hfresh2, Hsub.
      * intros ->. rewrite arrivals_cons, Ha in Hnd.
        by apply NoDup_cons in Hnd as [? _].
Qed.

(** X8. The registry invariant in every state [Serve] reaches. No worker of
    an earlier run holds an entry, and the connections the network brings
    are distinct and new. Then, however workers and the other goroutines are
    interleaved with the accept loop, in the state in which [Serve] returns
    or is blocked the registry holds exactly the connections whose worker is
    between its insertion and its deletion. *)
Theorem Serve_keeps_registry_invariant l sched w r w' :
  (∀ c pc, workers w !! c = Some pc → holds_entry pc = false) →
  NoDup (arrivals sched) →
  (∀ c, c ∈ arrivals sched → workers w !! c = None) →
  Serve l sched w = Ret r w' ∨ Serve l sched w = Pending w' →
  reg_inv w'.
Proof.
  intros Hold Hnd Hfresh. unfold Serve.
  destruct (Serve_init l w) as [id w0] eqn:Hinit.
  destruct (Serve_init_ctx _ _ _ _ Hinit) as (_&_&_&He&_&_&_&Hw&_).
  assert (H0 : reg_inv w0).
  { intros c. rewrite He, Hw, lookup_empty. split; [by intros [? ?]|].
    intros (pc&Hpc&Hh). apply Hold in Hpc. congruence. }
  assert (Hf0 : ∀ c, c ∈ arrivals sched → workers w0 !! c = None).
  { intros c Hc. rewrite Hw. by apply Hfresh. }
  destruct (Serve_loop l sched w0) as [r0 w2|w2|] eqn:E; intros [H|H]; simplify_eq.
  - apply (reg_inv_frame w2); [done..|].
    exact (Serve_loop_reg_inv l sched w0 r w2 H0 Hnd Hf0 (or_introl E)).
  - exact (Serve_loop_reg_inv l sched w0 None w' H0 Hnd Hf0 (or_intror E)).
Qed.

(** ** More on the TLS entry points *)

(** X9. [TCPListenAndServeTLS] has bound its listener, a file name is given
    and the key pair fails to load. The load error is returned, and the
    listener that was just bound is left open: no listener is closed, the
    log gains the listen and the load and nothing else. *)
Theorem TCPListenAndServeTLS_load_failure_leaves_listener_open
    net_Listen LoadX509KeyPair addr certFile keyFile sched w l e :
  net_Listen "tcp" addr = inl l →
  certFile ≠ EmptyString →
  (LoadX509KeyPair certFile keyFile).2 = Some e →
  (∀ q, TLSConfig (acc w) = Some q → is_Some (configs w !! q)) →
  ∃ w', TCPListenAndServeTLS net_Listen LoadX509KeyPair addr certFile keyFile sched w
        = Ret (Some e) w'
        ∧ closed_lis w' = closed_lis w
        ∧ lis (acc w') = lis (acc w)
        ∧ log w' = log w ++ [EvListen "tcp" addr; EvLoadX509KeyPair certFile keyFile].
Proof.
  intros Hl Hfile Herr Hcfg. unfold TCPListenAndServeTLS. rewrite Hl.
  set (w0 := emit (EvListen "tcp" addr) w).
  assert (Hsel : ∃ p w1 cfg,
    match TLSConfig (acc w0) with Some q => (q, w0) | None => newConfig w0 end = (p, w1)
    ∧ configs w1 !! p = Some cfg
    ∧ closed_lis w1 = closed_lis w ∧ lis (acc w1) = lis (acc w)
    ∧ log w1 = log w ++ [EvListen "tcp" addr]).
  { subst w0. simpl. destruct (TLSConfig (acc w)) as [q|] eqn:Hq.
    - destruct (Hcfg q eq_refl) as [cfg Hc]. exists q. eexists. exists cfg. by repeat split.
    - eexists. eexists. eexists. split; [reflexivity|]. simpl.
      split; [by rewrite lookup_insert_eq|]. by repeat split. }
  destruct Hsel as (p&w1&cfg&Hsel&Hc&Hcl&Hli&Hlog).
  rewrite (ServeTLS_unfold _ _ _ _ _ _ _ _ _ Hsel Hc).
  rewrite (bool_decide_eq_true_2 (certFile ≠ EmptyString) Hfile), orb_true_r. simpl.
  rewrite Herr. eexists. split; [reflexivity|]. unfold installed. simpl.
  rewrite Hlog, <- app_assoc. by repeat split.
Qed.

(** X10. With a nil [TLSConfig], [ServeTLS] always loads the key pair, also
    when both file names are empty, into a configuration object of its own:
    the Accepter's [TLSConfig] stays nil and no configuration object that
    existed before is changed, in the state in which it returns the load
    error or enters [Serve] and in every state it ends in. *)
Theorem ServeTLS_nil_config_always_loads LoadX509KeyPair l certFile keyFile sched w :
  TLSConfig (acc w) = None →
  let p := next_id w in
  let cert := (LoadX509KeyPair certFile keyFile).1 in
  let w4 := installed p cert certFile keyFile (mkConfig [] None) (newConfig w).2 in
  match (LoadX509KeyPair certFile keyFile).2 with
  | Some e => ServeTLS LoadX509KeyPair l certFile keyFile sched w = Ret (Some e) w4
  | None => ServeTLS LoadX509KeyPair l certFile keyFile sched w
            = Serve (TLSListener l p) sched w4
  end
  ∧ log w4 = log w ++ [EvLoadX509KeyPair certFile keyFile]
  ∧ (∀ r w', ServeTLS LoadX509KeyPair l certFile keyFile sched w = Ret r w'
             ∨ ServeTLS LoadX509KeyPair l certFile keyFile sched w = Pending w' →
       TLSConfig (acc w') = None
       ∧ configs w' !! p = Some (mkConfig [cert] None)
       ∧ ∀ q, q ≠ p → configs w' !! q = configs w !! q).
Proof.
  intros Hnil p cert w4.
  assert (Hu := ServeTLS_unfold LoadX509KeyPair l certFile keyFile sched w p
                  (newConfig w).2 (mkConfig [] None)).
  rewrite Hnil in Hu. specialize (Hu eq_refl).
  assert (Hlk : configs (newConfig w).2 !! p = Some (mkConfig [] None)).
  { simpl. by rewrite lookup_insert_eq. }
  specialize (Hu Hlk). simpl in Hu. fold p in Hu. fold cert in Hu. fold w4 in Hu.
  assert (H4 : TLSConfig (acc w4) = None
               ∧ configs w4 !! p = Some (mkConfig [cert] None)
               ∧ ∀ q, q ≠ p → configs w4 !! q = configs w !! q).
  { subst w4. unfold installed. simpl. split; [done|].
    split; [by rewrite lookup_insert_eq|].
    intros q Hq. by rewrite !lookup_insert_ne. }
  split; [by destruct (LoadX509KeyPair certFile keyFile).2|]. split; [done|].
  intros r w' H. rewrite Hu in H.
  destruct (LoadX509KeyPair certFile keyFile).2 as [e|].
  - destruct H as [H|H]; [|done]. by simplify_eq.
  - apply Serve_outcome_configs in H as [-> ->]. done.
Qed.

(** ** The echo handler *)

Lemma echo_cons rd script :
  echo (rd :: script)
  = match rd_err (io_read rd) with
    | Some _ => ([], HandlerReturned)
    | None =>
        let b := read_bytes (io_read rd) in
        let m := Nat.min (wr_n (io_write rd)) (length b) in
        match wr_err (io_write rd) with
        | Some _ => (take m b, HandlerReturned)
        | None =>
            if (m <? length b)%nat then (take m b, HandlerReturned)
            else (take m b ++ (echo script).1, (echo script).2)
        end
    end.
Proof.
  simpl. destruct (rd_err (io_read rd)); [done|].
  destruct (wr_err (io_write rd)); [done|].
  destruct (_ <? _)%nat; [done|]. by destruct (echo script).
Qed.

Lemma echo_clean rd script :
  clean_round rd →
  echo (rd :: script)
  = (read_bytes (io_read rd) ++ (echo script).1, (echo script).2).
Proof.
  intros (Hr&Hw&Hn). rewrite echo_cons, Hr, Hw. simpl.
  rewrite Nat.min_r by done. rewrite Nat.ltb_irrefl.
  by rewrite firstn_all.
Qed.

(** X11. The handler writes nothing but what it has read, in order: its
    output is always a prefix of the bytes its reads have delivered. *)
Theorem echo_writes_prefix_of_reads script :
  (echo script).1 `prefix_of` mjoin ((read_bytes ∘ io_read) <$> script).
Proof.
  induction script as [|rd script IH]; [by exists []|].
  rewrite echo_cons. simpl.
  set (b := read_bytes (io_read rd)).
  set (m := Nat.min (wr_n (io_write rd)) (length b)).
  assert (Hp : take m b `prefix_of` b ++ mjoin ((read_bytes ∘ io_read) <$> script)).
  { apply prefix_app_r. apply prefix_take. }
  destruct (rd_err (io_read rd)); [apply prefix_nil|].
  destruct (wr_err (io_write rd)); [exact Hp|].
  destruct (m <? length b)%nat eqn:Hm; [exact Hp|]. simpl.
  apply Nat.ltb_ge in Hm. rewrite take_ge by done.
  by apply prefix_app.
Qed.

(** X12. The round trip. As long as every read succeeds and every write
    takes all of it, the handler has written exactly the bytes it has read
    and goes on reading; at the first failing read it returns, having echoed
    everything, and whatever would follow is never read. *)
Theorem echo_round_trip pre last rest e :
  Forall clean_round pre →
  rd_err (io_read last) = Some e →
  echo pre = (mjoin ((read_bytes ∘ io_read) <$> pre), HandlerBlocked)
  ∧ echo (pre ++ last :: rest)
    = (mjoin ((read_bytes ∘ io_read) <$> pre), HandlerReturned).
Proof.
  intros Hpre Hlast. induction Hpre as [|rd pre Hrd Hpre [IH1 IH2]].
  - split; [done|]. simpl app. rewrite echo_cons. by rewrite Hlast.
  - split.
    + rewrite (echo_clean _ _ Hrd), IH1. done.
    + simpl app. rewrite (echo_clean _ _ Hrd), IH2. done.
Qed.

(** X13. A failing or short write ends the handler. After rounds that went
    through, the read succeeds but the write reports an error or takes less
    than it was given: the handler returns, having written all earlier
    chunks and the part of this one the connection took; whatever would
    follow is never read. *)
Theorem echo_stops_at_failed_write pre bad rest :
  Forall clean_round pre →
  rd_err (io_read bad) = None →
  wr_err (io_write bad) ≠ None
  ∨ (wr_n (io_write bad) < length (read_bytes (io_read bad)))%nat →
  echo (pre ++ bad :: rest)
  = (mjoin ((read_bytes ∘ io_read) <$> pre)
       ++ take (wr_n (io_write bad)) (read_bytes (io_read bad)),
     HandlerReturned).
Proof.
  intros Hpre Hr Hbad. induction Hpre as [|rd pre Hrd Hpre IH].
  - simpl app. rewrite echo_cons, Hr. simpl.
    set (b := read_bytes (io_read bad)) in *.
    assert (Ht : take (wr_n (io_write bad) `min` length b) b
                 = take (wr_n (io_write bad)) b).
    { destruct (Nat.min_spec (wr_n (io_write bad)) (length b)) as [[_ ->]|[Hle ->]];
        [done|]. by rewrite !take_ge. }
    rewrite Ht. destruct Hbad as [Hw|Hn].
    + by destruct (wr_err (io_write bad)).
    + destruct (wr_err (io_write bad)); [done|].
      rewrite Nat.min_l by lia.
      by rewrite (proj2 (Nat.ltb_lt _ _) Hn).
  - simpl app. rewrite (echo_clean _ _ Hrd), IH. simpl. by rewrite app_assoc.
Qed.

(** ** Every accepted connection gets its goroutine *)

Lemma env_do_keeps_open s w w' :
  s ≠ EnvLisClose → env_do s w = Some w' → closed_lis w' = closed_lis w.
Proof.
  destruct s as [c| | |c]; simpl; intros Hs H; [| |done|].
  - destruct (workers w !! c) as [pc|]; [|by simplify_eq].
    destruct (serve_step c pc w) as [[pc' w1]|] eqn:E; simpl in H; [|done].
    simplify_eq. simpl. by eapply serve_step_closed_lis.
  - destruct (ctxCancel (acc w)); simpl in H; by simplify_eq.
  - by simplify_eq.
Qed.

Lemma interfere_keeps_open steps : ∀ w w',
  Forall (λ s, s ≠ EnvLisClose) steps → interfere steps w = Some w' →
  closed_lis w' = closed_lis w.
Proof.
  induction steps as [|s steps IH]; simpl; intros w w' HF H; [by simplify_eq|].
  apply Forall_cons in HF as [Hs HF].
  destruct (env_do s w) as [w1|] eqn:E; simpl in H; [|done].
  rewrite (IH _ _ HF H). by eapply env_do_keeps_open.
Qed.

Lemma Serve_loop_worker_stays c l sched w r w' :
  Serve_loop l sched w = Ret r w' ∨ Serve_loop l sched w = Pending w' →
  is_Some (workers w !! c) → is_Some (workers w' !! c).
Proof.
  apply (Serve_loop_stable (λ w, is_Some (workers w !! c))); try done.
  - intros c0 pc w0 pc' w1 Hpc H HP. simpl.
    apply serve_step_cases in H
      as [(?&_&_&_&->)|[(?&_&_&->)|[(?&_&_&->)|[(?&_&_&->)|[(?&_&_&->)|(_&_&->)]]]]];
      simpl; apply lookup_insert_is_Some'; by right.
  - intros c0 w0 HP. simpl. apply lookup_insert_is_Some'. by right.
Qed.

Lemma Serve_loop_dispatches l0 id l sched : ∀ w,
  serving_on l0 id w →
  lis_id l ∉ closed_lis w →
  Forall brings_conn sched →
  ∃ w', Serve_loop l sched w = Pending w'
        ∧ ∀ c, c ∈ arrivals sched → is_Some (workers w' !! c).
Proof.
  induction sched as [|rd sched IH]; intros w HS Hopen HF.
  - exists w. split; [done|]. intros c Hc. by apply elem_of_nil in Hc.
  - apply Forall_cons in HF as [[Hno [c Hc]] HF].
    destruct (interfere_total l0 id (interference rd) w HS) as [w2 E].
    pose proof (interfere_keeps_open _ _ _ Hno E) as Hcl.
    pose proof (interfere_serving_on l0 id _ _ _ E HS) as HS2.
    destruct (IH (go_serve c (emit (EvAccept l) w2))) as (w'&Hw'&Hall);
      [exact HS2|simpl; by rewrite Hcl|exact HF|].
    exists w'. split.
    + simpl. rewrite E. unfold lisAccept. simpl.
      rewrite Hcl, (bool_decide_eq_false_2 _ Hopen), Hc. exact Hw'.
    + intros c'. rewrite arrivals_cons, Hc. intros Hin.
      apply elem_of_cons in Hin as [->|Hin]; [|by apply Hall].
      apply (Serve_loop_worker_stays c l sched _ None w' (or_intror Hw')).
      simpl. rewrite lookup_insert_eq. by eexists.
Qed.

(** X14. As long as nobody closes the listener and the network keeps
    bringing connections, [Serve] does not return: it is blocked in [Accept]
    again, and every connection it has accepted has its goroutine. *)
Theorem Serve_dispatches_every_connection l sched w :
  lis_id l ∉ closed_lis w →
  Forall brings_conn sched →
  ∃ w', Serve l sched w = Pending w'
        ∧ ∀ c, c ∈ arrivals sched → is_Some (workers w' !! c).
Proof.
  intros Hopen HF. unfold Serve.
  destruct (Serve_init l w) as [id w0] eqn:Hinit.
  destruct (Serve_init_ctx _ _ _ _ Hinit) as (_&_&_&_&_&_&Hcl&_).
  destruct (Serve_loop_dispatches l id l sched w0) as (w'&Hw'&Hall);
    [by eapply Serve_init_serving_on|by rewrite Hcl|exact HF|].
  exists w'. by rewrite Hw'.
Qed.

(** ** The further properties at sample inputs *)


Lemma stop_safe_once_serving_witness :
  Close Sample.accepted_one ≠ Panic
  ∧ Shutdown [Sample.poll_wait] Sample.accepted_one ≠ Panic
  ∧ (∀ w2 sched2, ctxCancel (acc w2) = None →
       Close w2 = Panic ∧ Shutdown sched2 w2 = Panic).
Proof.
  apply (stop_safe_once_serving Sample.l0 Sample.first_round Sample.fresh 1
           Sample.serving Sample.accepted_one [Sample.poll_wait]).
  - vm_compute; reflexivity.
  - vm_compute; reflexivity.
Defined.

Lemma Serve_returns_nil_once_stopped_witness :
  ∃ w2, interfere (interference (mkAccept [EnvWorker 7] (Incoming 9)))
          (Sample.outcome_world (Close Sample.accepted_one)) = Some w2
        ∧ Serve_loop Sample.l0 (mkAccept [EnvWorker 7] (Incoming 9) :: [])
            (Sample.outcome_world (Close Sample.accepted_one))
          = Ret None (emit (EvAccept Sample.l0) w2).
Proof.
  apply (Serve_returns_nil_once_stopped Sample.l0 Sample.first_round Sample.fresh 1
           Sample.serving Sample.accepted_one [] None
           (Sample.outcome_world (Close Sample.accepted_one))
           (mkAccept [EnvWorker 7] (Incoming 9)) []).
  - vm_compute; reflexivity.
  - vm_compute; reflexivity.
  - left. vm_compute; reflexivity.
Defined.

Lemma Serve_return_cancels_every_entry_witness :
  lis_id Sample.l0 ∈ closed_lis Sample.crashed
  ∧ ∀ c cd, connDatas (acc Sample.crashed) !! c = Some cd →
            cd_conn cd = c ∧ ctx_done (cancelled Sample.crashed) (cd_ctx cd) = true.
Proof.
  apply (Serve_return_cancels_every_entry Sample.l0 Sample.crash_sched Sample.fresh
           (Some Sample.errPlain) Sample.crashed).
  vm_compute; reflexivity.
Defined.

Lemma stop_cancels_every_entry_witness :
  connDatas (acc (Sample.outcome_world (Close Sample.serving_two))) !! 7%positive
  = Some (mkConnData (WithCancelCtx 2 (WithCancelCtx 1 Background)) 7)
  ∧ cd_conn (mkConnData (WithCancelCtx 2 (WithCancelCtx 1 Background)) 7) = 7%positive
  ∧ ctx_done (cancelled (Sample.outcome_world (Close Sample.serving_two)))
      (cd_ctx (mkConnData (WithCancelCtx 2 (WithCancelCtx 1 Background)) 7)) = true.
Proof.
  assert (He : connDatas (acc (Sample.outcome_world (Close Sample.serving_two))) !! 7%positive
               = Some (mkConnData (WithCancelCtx 2 (WithCancelCtx 1 Background)) 7))
    by (vm_compute; reflexivity).
  split; [exact He|].
  refine (stop_cancels_every_entry Sample.l0 Sample.two_rounds Sample.fresh 1
            Sample.serving Sample.serving_two [] None
            (Sample.outcome_world (Close Sample.serving_two)) _ _ _ 7%positive _ He).
  - vm_compute; reflexivity.
  - vm_compute; reflexivity.
  - left. vm_compute; reflexivity.
Defined.


Lemma Shutdown_overlooks_unregistered_worker_witness :
  ∃ w' w'',
    Shutdown (mkPoll [] TimerFired :: []) Sample.spawned8
    = Ret (lisClose Sample.l0 (cancel 1 Sample.spawned8)).1 w'
    ∧ workers w' !! 8%positive = Some WSpawned
    ∧ interfere [EnvWorker 8; EnvWorker 8] w' = Some w''
    ∧ is_Some (connDatas (acc w'') !! 8%positive)
    ∧ workers w'' !! 8%positive = Some (WInHandler (next_id Sample.spawned8))
    ∧ log w'' = log w' ++ [EvRegInsert 8; EvHandlerCall 8].
Proof.
  apply (Shutdown_overlooks_unregistered_worker Sample.l0 1 Sample.spawned8 8 []).
  - repeat split; vm_compute; reflexivity.
  - vm_compute; reflexivity.
  - vm_compute; reflexivity.
Defined.

Lemma Serve_keeps_registry_invariant_witness :
  reg_inv (Sample.outcome_world (Serve Sample.l0 Sample.two_rounds Sample.fresh)).
Proof.
  apply (Serve_keeps_registry_invariant Sample.l0 Sample.two_rounds Sample.fresh None
           (Sample.outcome_world (Serve Sample.l0 Sample.two_rounds Sample.fresh))).
  - intros c pc H. simpl in H. by rewrite lookup_empty in H.
  - apply (bool_decide_unpack _). vm_compute. exact I.
  - intros c _. simpl. by rewrite lookup_empty.
  - right. vm_compute; reflexivity.
Defined.

Lemma TCPListenAndServeTLS_load_failure_leaves_listener_open_witness :
  ∃ w', TCPListenAndServeTLS Sample.bind Sample.loader ":1234" "missing.pem" "key.pem" []
          Sample.fresh
        = Ret (Some Sample.errLoad) w'
        ∧ closed_lis w' = closed_lis Sample.fresh
        ∧ lis (acc w') = lis (acc Sample.fresh)
        ∧ log w' = log Sample.fresh
                   ++ [EvListen "tcp" ":1234"; EvLoadX509KeyPair "missing.pem" "key.pem"].
Proof.
  apply (TCPListenAndServeTLS_load_failure_leaves_listener_open Sample.bind Sample.loader
           ":1234" "missing.pem" "key.pem" [] Sample.fresh Sample.l0 Sample.errLoad).
  - reflexivity.
  - discriminate.
  - vm_compute; reflexivity.
  - intros q H. discriminate H.
Defined.

Lemma ServeTLS_nil_config_always_loads_witness :
  ServeTLS Sample.loader Sample.l0 EmptyString EmptyString [] Sample.fresh
  = Ret (Some Sample.errLoad)
      (installed 1 EmptyString EmptyString EmptyString (mkConfig [] None)
         (newConfig Sample.fresh).2).
Proof.
  destruct (ServeTLS_nil_config_always_loads Sample.loader Sample.l0 EmptyString
              EmptyString [] Sample.fresh) as (H&_).
  - reflexivity.
  - exact H.
Defined.

Lemma echo_round_trip_witness :
  echo [Sample.echo_ok; Sample.echo_ok]
  = (mjoin ((read_bytes ∘ io_read) <$> [Sample.echo_ok; Sample.echo_ok]), HandlerBlocked)
  ∧ echo ([Sample.echo_ok; Sample.echo_ok] ++ Sample.echo_eof :: [Sample.echo_ok])
    = (mjoin ((read_bytes ∘ io_read) <$> [Sample.echo_ok; Sample.echo_ok]), HandlerReturned).
Proof.
  apply (echo_round_trip [Sample.echo_ok; Sample.echo_ok] Sample.echo_eof
           [Sample.echo_ok] Sample.errEOF).
  - repeat constructor; vm_compute; lia.
  - reflexivity.
Defined.

Lemma echo_stops_at_failed_write_witness :
  echo ([Sample.echo_ok] ++ Sample.echo_short :: [Sample.echo_ok])
  = (mjoin ((read_bytes ∘ io_read) <$> [Sample.echo_ok])
       ++ take (wr_n (io_write Sample.echo_short)) (read_bytes (io_read Sample.echo_short)),
     HandlerReturned).
Proof.
  apply (echo_stops_at_failed_write [Sample.echo_ok] Sample.echo_short [Sample.echo_ok]).
  - repeat constructor; vm_compute; lia.
  - reflexivity.
  - right. vm_compute. lia.
Defined.

Lemma Serve_dispatches_every_connection_witness :
  ∃ w', Serve Sample.l0 Sample.two_rounds Sample.fresh = Pending w'
        ∧ ∀ c, c ∈ arrivals Sample.two_rounds → is_Some (workers w' !! c).
Proof.
  apply (Serve_dispatches_every_connection Sample.l0 Sample.two_rounds Sample.fresh).
  - apply (bool_decide_unpack _). vm_compute. exact I.
  - repeat constructor; try discriminate; by eexists.
Defined.
